(** * Compawnion: the dog-park scraper (update_parks.py)

    A shallow embedding of the scraping, normalisation and deduplication
    pipeline of [DogParkScraper], and the properties its specification
    states about it.

    Modelling choices, all taken from the source:
    - a Python [float] is an IEEE-754 binary64 value, here a primitive
      [float]; the arithmetic of the source ([-], [abs], [<], [+], [/])
      is the arithmetic of [PrimFloat];
    - a [DogPark] is a mutable object.  [self.parks] is a list of
      references to such objects, and [remove_duplicates] updates the
      objects that it keeps in place.  The objects live in a store
      (a list indexed by address) and [self.parks] is a list of addresses;
    - a dict with string keys is a [gmap string _];
    - [list(set(xs))] removes duplicates and yields the elements in an
      order that depends on the hashing of the interpreter; it is a
      parameter of the development, constrained only by what Python
      guarantees of it;
    - the builtin [sum] adds floats as the interpreter that runs the
      script does, which is a parameter, [python]: one by one before
      CPython 3.12, with the rounding errors carried along from 3.12 on;
    - an exception is a value of the type [exn], raised in the [result]
      monad. *)

From Stdlib Require Import PrimFloat.
From Stdlib Require Uint63 SpecFloat FloatAxioms.
From stdpp Require Import base option list strings gmap.

Set Warnings "-inexact-float,-register-all".

(** ** Data model *)

(** [class DogPark]: the dataclass.  [amenities] is given its
    [__post_init__] value, a list; a coordinate of [area_bounds], the
    two-element list [[lat, lon]], is a pair. *)
Record DogPark := mkDogPark {
  name : string;
  lat : float;
  lng : float;
  description : string;
  address : string;
  amenities : list string;
  area_bounds : option (list (float * float));
  source : string
}.

#[global] Instance DogPark_inhabited : Inhabited DogPark :=
  populate (mkDogPark "" 0%float 0%float "" "" [] None "").

(** Addresses of [DogPark] objects in the store. *)
Abbreviation loc := nat.

(** The part of a [DogParkScraper] the pipeline works on: the objects
    allocated so far and [self.parks], the references to them. *)
Record DogParkScraper := mkScraper {
  objs : list DogPark;
  parks : list loc
}.

(** [DogParkScraper.__init__]: no park yet. *)
Definition init : DogParkScraper := mkScraper [] [].

(** [self.parks.append(park)] for a freshly constructed [park]. *)
Definition append_park (st : DogParkScraper) (park : DogPark) : DogParkScraper :=
  mkScraper (objs st ++ [park]) (parks st ++ [length (objs st)]).

(** Truth value of a string and of a list: non-empty. *)
Definition truthy_str (s : string) : bool :=
  match s with EmptyString => false | String _ _ => true end.

Definition truthy_list {A} (l : list A) : bool :=
  match l with [] => false | _ :: _ => true end.

(** Assignments to the two attributes [remove_duplicates] writes. *)
Definition set_description (d : string) (p : DogPark) : DogPark :=
  mkDogPark (name p) (lat p) (lng p) d (address p) (amenities p)
            (area_bounds p) (source p).

Definition set_amenities (a : list string) (p : DogPark) : DogPark :=
  mkDogPark (name p) (lat p) (lng p) (description p) (address p) a
            (area_bounds p) (source p).

(** ** Deduplication *)

(** The test of [remove_duplicates]:
    [lat_diff < 0.001 and lng_diff < 0.001]. *)
Definition threshold : float := 0.001%float.

Definition lat_diff (park unique_park : DogPark) : float :=
  abs (lat park - lat unique_park)%float.

Definition lng_diff (park unique_park : DogPark) : float :=
  abs (lng park - lng unique_park)%float.

Definition is_close (park unique_park : DogPark) : bool :=
  (lat_diff park unique_park <? threshold)%float
  && (lng_diff park unique_park <? threshold)%float.

(** One concrete [list(set(xs))]: first occurrences, in order. *)
Definition first_occurrences (xs : list string) : list string :=
  remove_dups xs.

Section Deduplication.

(** [list(set(xs))]. *)
Variable list_of_set : list string → list string.

(** What Python guarantees of it: no element twice, and the elements
    of [xs], all of them. *)
Definition list_of_set_spec : Prop :=
  ∀ xs, NoDup (list_of_set xs) ∧ ∀ x, x ∈ list_of_set xs ↔ x ∈ xs.

(** The body of [if lat_diff < 0.001 and lng_diff < 0.001:], up to the
    [break]: the new state of the object [unique_park]. *)
Definition merge_into (park unique_park : DogPark) : DogPark :=
  let unique_park1 :=
    if truthy_str (description park)
       && negb (truthy_str (description unique_park))
    then set_description (description park) unique_park
    else unique_park in
  if truthy_list (amenities park)
  then set_amenities
         (list_of_set (amenities unique_park1 ++ amenities park))
         unique_park1
  else unique_park1.

(** [for unique_park in unique_parks: ...]: [Some h'] when the loop
    leaves through [break] with [is_duplicate = True] and the store
    [h'], [None] when it runs to its end.  [park] and [unique_park] are
    references, which in Python always lead to an object; on an address
    outside the store the total lookup [!!!] reads the default object
    and the update writes nothing. *)
Fixpoint scan_unique (h : list DogPark) (park : loc)
    (unique_parks : list loc) : option (list DogPark) :=
  match unique_parks with
  | [] => None
  | unique_park :: rest =>
      if is_close (h !!! park) (h !!! unique_park)
      then Some (<[unique_park :=
                     merge_into (h !!! park) (h !!! unique_park)]> h)
      else scan_unique h park rest
  end.

(** One iteration of [for park in self.parks:]. *)
Definition dedup_step (acc : list DogPark * list loc) (park : loc)
    : list DogPark * list loc :=
  match scan_unique acc.1 park acc.2 with
  | Some h' => (h', acc.2)
  | None => (acc.1, acc.2 ++ [park])
  end.

Definition dedup_loop (h : list DogPark) (unique_parks : list loc)
    (todo : list loc) : list DogPark * list loc :=
  foldl dedup_step (h, unique_parks) todo.

(** [remove_duplicates]. *)
Definition remove_duplicates (st : DogParkScraper) : DogParkScraper :=
  let r := dedup_loop (objs st) [] (parks st) in
  mkScraper r.1 r.2.

End Deduplication.

(** ** Exceptions *)

(** The exceptions the modelled statements raise; all of them are
    subclasses of [Exception]. *)
Inductive exn :=
  | KeyError (key : string)
  | IndexError
  | TypeError
  | ValueError
  | OverflowError
  | RequestException
  | HTTPError
  | JSONDecodeError.

Inductive result (A : Type) :=
  | Ok (a : A)
  | Raise (e : exn).
Arguments Ok {A} a.
Arguments Raise {A} e.

Definition bind {A B} (m : result A) (k : A → result B) : result B :=
  match m with
  | Ok a => k a
  | Raise e => Raise e
  end.

Notation "x <- m ;; k" := (bind m (λ x, k))
  (at level 100, m at next level, right associativity).

(** [d[key]] on a dict that may lack [key]. *)
Definition get_item {A} (key : string) (o : option A) : result A :=
  match o with
  | Some a => Ok a
  | None => Raise (KeyError key)
  end.

(** ** OpenStreetMap elements *)

(** One element of the Overpass reply, a JSON object.  [type] and [id]
    are read with [element['type']] and [element['id']] on every
    element; the other keys may be absent. *)
Record element := mkElement {
  e_type : string;
  e_id : Z;
  e_lat : option float;
  e_lon : option float;
  e_tags : option (gmap string string);
  e_nodes : option (list Z)
}.

(** [sep.join(parts)]. *)
Fixpoint join (sep : string) (parts : list string) : string :=
  match parts with
  | [] => ""
  | [s] => s
  | s :: rest => s +:+ sep +:+ join sep rest
  end.

(** [description_parts], as both [_process_osm_node] and
    [_process_osm_way] build it. *)
Definition description_parts (tags : gmap string string) : list string :=
  let parts := [] in
  let parts :=
    match tags !! "description" with
    | Some d => parts ++ [d]
    | None => parts
    end in
  let parts :=
    match tags !! "surface" with
    | Some s => parts ++ ["Surface: " +:+ s]
    | None => parts
    end in
  parts.

(** [tags.get(key) == 'yes']. *)
Definition tag_yes (tags : gmap string string) (key : string) : bool :=
  bool_decide (tags !! key = Some "yes").

(** The four [if tags.get(...) == 'yes': amenities.append(...)] lines;
    [_process_osm_node] and [_process_osm_way] have the same four. *)
Definition collect_amenities (tags : gmap string string) : list string :=
  let amenities := [] in
  let amenities :=
    if tag_yes tags "drinking_water" then amenities ++ ["Water fountain"]
    else amenities in
  let amenities :=
    if tag_yes tags "lit" then amenities ++ ["Lighting"] else amenities in
  let amenities :=
    if tag_yes tags "fence" then amenities ++ ["Fenced"] else amenities in
  let amenities :=
    if tag_yes tags "toilets" then amenities ++ ["Restrooms"]
    else amenities in
  amenities.

(** The [DogPark] that [_process_osm_node] constructs. *)
Definition node_park (node : element) : result DogPark :=
  let tags := default ∅ (e_tags node) in
  let name :=
    default (default "Unnamed Dog Park" (tags !! "dog")) (tags !! "name") in
  let parts := description_parts tags in
  let amenities := collect_amenities tags in
  la <- get_item "lat" (e_lat node) ;;
  lo <- get_item "lon" (e_lon node) ;;
  Ok (mkDogPark name la lo
        (if truthy_list parts then join " | " parts else "Dog park")
        (default "" (tags !! "addr:full"))
        amenities None "OpenStreetMap").

(** [_process_osm_node]. *)
Definition _process_osm_node (st : DogParkScraper) (node : element)
    : result DogParkScraper :=
  park <- node_park node ;;
  Ok (append_park st park).

(** The loop over [nodes] that fills [coords]. *)
Fixpoint resolve_coords (nodes_dict : gmap Z element) (nodes : list Z)
    : result (list (float * float)) :=
  match nodes with
  | [] => Ok []
  | node_id :: rest =>
      match nodes_dict !! node_id with
      | Some node =>
          la <- get_item "lat" (e_lat node) ;;
          lo <- get_item "lon" (e_lon node) ;;
          coords <- resolve_coords nodes_dict rest ;;
          Ok ((la, lo) :: coords)
      | None => resolve_coords nodes_dict rest
      end
  end.

(** The builtin [sum] adds floats in one of two ways, by the version
    of the interpreter: CPython before 3.12 adds the items one by one;
    CPython 3.12 and later also note the rounding error of each
    addition and add the errors to the total at the end. *)
Inductive interpreter :=
  | Before312
  | From312.

(** [sum(xs)] before 3.12: from the integer [0], left to right. *)
Definition sum_left_to_right (xs : list float) : float :=
  foldl PrimFloat.add 0%float xs.

(** One turn of the loop of [sum] from 3.12 on, over the state
    [(f_result, c)]:
    [t = f_result + x],
    [c += (f_result - t) + x] when [fabs(f_result) >= fabs(x)] and
    [c += (x - t) + f_result] otherwise, [f_result = t]. *)
Definition compensate (acc : float * float) (x : float) : float * float :=
  let f_result := acc.1 in
  let c := acc.2 in
  let t := (f_result + x)%float in
  let c :=
    if (abs x <=? abs f_result)%float
    then (c + ((f_result - t) + x))%float
    else (c + ((x - t) + f_result))%float in
  (t, c).

(** [sum(xs)] from 3.12 on: the first float is added to the integer
    [0], the loop runs over the others from [c = 0.0], and at the end
    [c] is added when it is finite and not zero. *)
Definition sum_compensated (xs : list float) : float :=
  match xs with
  | [] => 0%float
  | x :: rest =>
      let acc := foldl compensate ((0 + x)%float, 0%float) rest in
      if negb (acc.2 =? 0)%float && is_finite acc.2
      then (acc.1 + acc.2)%float
      else acc.1
  end.

Section Interpreter.

(** The interpreter that runs the script. *)
Variable python : interpreter.

(** [sum(xs)] on floats. *)
Definition py_sum (xs : list float) : float :=
  match python with
  | Before312 => sum_left_to_right xs
  | From312 => sum_compensated xs
  end.

(** The float that [/] makes of [len(xs)]. *)
Definition float_of_len {A} (xs : list A) : float :=
  of_uint63 (Uint63.of_Z (Z.of_nat (length xs))).

(** What [_process_osm_way] does with its element: nothing ([None], one
    of the two [return]s) or a [DogPark] to append. *)
Definition way_park (way : element) (nodes_dict : gmap Z element)
    : result (option DogPark) :=
  let tags := default ∅ (e_tags way) in
  let nodes := default [] (e_nodes way) in
  if negb (truthy_list nodes) then Ok None else
  coords <- resolve_coords nodes_dict nodes ;;
  if negb (truthy_list coords) then Ok None else
  let center_lat := (py_sum (map fst coords) / float_of_len coords)%float in
  let center_lng := (py_sum (map snd coords) / float_of_len coords)%float in
  let name := default "Unnamed Dog Park" (tags !! "name") in
  let parts := description_parts tags in
  let amenities := collect_amenities tags in
  Ok (Some (mkDogPark name center_lat center_lng
              (if truthy_list parts then join " | " parts
               else "Dog park area")
              (default "" (tags !! "addr:full"))
              amenities (Some coords) "OpenStreetMap")).

(** [_process_osm_way]. *)
Definition _process_osm_way (st : DogParkScraper) (way : element)
    (nodes_dict : gmap Z element) : result DogParkScraper :=
  r <- way_park way nodes_dict ;;
  match r with
  | Some park => Ok (append_park st park)
  | None => Ok st
  end.

(** ** The Overpass fetcher *)

(** First pass of [scrape_openstreetmap]: [nodes_dict]. *)
Definition index_nodes (elements : list element) : gmap Z element :=
  foldl (λ nodes_dict element,
           if bool_decide (e_type element = "node")
           then <[e_id element := element]> nodes_dict
           else nodes_dict)
        ∅ elements.

(** The body of the second loop. *)
Definition process_element (nodes_dict : gmap Z element)
    (st : DogParkScraper) (element : element) : result DogParkScraper :=
  if bool_decide (e_type element = "node") && bool_decide (is_Some (e_tags element))
  then _process_osm_node st element
  else if bool_decide (e_type element = "way")
          && bool_decide (is_Some (e_tags element))
  then _process_osm_way st element nodes_dict
  else Ok st.

(** The second loop, inside [try]: an exception ends it, and the parks
    appended before stay in [self.parks]. *)
Fixpoint process_elements (nodes_dict : gmap Z element)
    (st : DogParkScraper) (elements : list element) : DogParkScraper :=
  match elements with
  | [] => st
  | element :: rest =>
      match process_element nodes_dict st element with
      | Ok st' => process_elements nodes_dict st' rest
      | Raise _ => st
      end
  end.

(** [scrape_openstreetmap], given what the request, [raise_for_status]
    and [response.json()] come to: an exception, or the list under
    ['elements'] (empty when the key is absent). *)
Definition scrape_openstreetmap (reply : result (list element))
    (st : DogParkScraper) : DogParkScraper :=
  match reply with
  | Ok elements => process_elements (index_nodes elements) st elements
  | Raise _ => st
  end.

(** ** The static source *)

(** [madison_parks], with the [DogPark] made of each entry. *)
Definition madison_parks : list DogPark :=
  [ mkDogPark "Sycamore Dog Park" 43.0848%float (-89.4445)%float
      "Large fenced area with separate small dog section"
      "Sycamore Ave, Madison, WI"
      ["Fenced"; "Separate small dog area"; "Water fountain"]
      None "Madison Parks Department";
    mkDogPark "Yahara Heights Park" 43.1101%float (-89.3156)%float
      "Popular dog-friendly park with trails"
      "Yahara Heights Rd, Madison, WI"
      ["Trails"; "Parking"]
      None "Madison Parks Department";
    mkDogPark "Warner Park Dog Exercise Area" 43.1141%float (-89.3537)%float
      "Spacious off-leash area near the lake"
      "Warner Park, Madison, WI"
      ["Fenced"; "Lake access"; "Parking"]
      None "Madison Parks Department";
    mkDogPark "Quann Dog Park" 43.0245%float (-89.5137)%float
      "Well-maintained dog park on the west side"
      "Quann Park, Madison, WI"
      ["Fenced"; "Water fountain"; "Parking"]
      None "Madison Parks Department";
    mkDogPark "Token Creek Dog Park" 43.1499%float (-89.2561)%float
      "Large rural dog park with nature trails"
      "Token Creek County Park, WI"
      ["Large area"; "Trails"; "Parking"]
      None "Madison Parks Department" ].

(** [_scrape_madison_parks]. *)
Definition _scrape_madison_parks (st : DogParkScraper) : DogParkScraper :=
  foldl append_park st madison_parks.

(** ** The pipeline *)

(** The records of [self.parks], as [export_to_json] and [export_to_js]
    read them: [[asdict(park) for park in self.parks]]. *)
Definition exported (st : DogParkScraper) : list DogPark :=
  map (λ park : loc, objs st !!! park) (parks st).

(** [run], from the Overpass reply on: [madison] says whether
    [self.location] names Madison, WI, the one city with a static source. *)
Definition run (list_of_set : list string → list string)
    (reply : result (list element)) (madison : bool) : DogParkScraper :=
  let st := scrape_openstreetmap reply init in
  let st := if madison then _scrape_madison_parks st else st in
  remove_duplicates list_of_set st.

(** ** The geocoder *)

(** A JSON value, as [response.json()] returns it. *)
Inductive json :=
  | JNull
  | JBool (b : bool)
  | JInt (n : Z)
  | JFloat (f : float)
  | JStr (s : string)
  | JList (items : list json)
  | JDict (items : list (string * json)).

(** What [self.session.get] hands back: the status that
    [raise_for_status] looks at and the body that [json()] decodes,
    [None] when it is not JSON. *)
Record response := mkResponse {
  status_ok : bool;
  decoded : option json
}.

(** The default Madison coordinates. *)
Definition default_coordinates : float * float :=
  (43.0731%float, (-89.4012)%float).

(** [if data:]. *)
Definition truthy (data : json) : bool :=
  match data with
  | JNull => false
  | JBool b => b
  | JInt n => negb (n =? 0)%Z
  | JFloat f => negb (f =? 0)%float
  | JStr s => truthy_str s
  | JList items => truthy_list items
  | JDict items => truthy_list items
  end.

(** Lookup in a JSON object: the last binding of a repeated key wins. *)
Fixpoint dict_get (items : list (string * json)) (key : string)
    : option json :=
  match items with
  | [] => None
  | (k, v) :: rest =>
      match dict_get rest key with
      | Some v' => Some v'
      | None => if bool_decide (k = key) then Some v else None
      end
  end.

(** [data[0]]. *)
Definition subscript_0 (data : json) : result json :=
  match data with
  | JList (first :: _) => Ok first
  | JList [] => Raise IndexError
  | JStr (String c _) => Ok (JStr (String c ""))
  | JStr "" => Raise IndexError
  | JDict _ => Raise (KeyError "0")
  | _ => Raise TypeError
  end.

(** [first[key]] for a string [key]. *)
Definition subscript (first : json) (key : string) : result json :=
  match first with
  | JDict items => get_item key (dict_get items key)
  | _ => Raise TypeError
  end.

Section Geocoder.

(** [float(s)] on a string, [None] for [ValueError]; [float(n)] on an
    integer, [None] for [OverflowError]. *)
Variable float_of_str : string → option float.
Variable float_of_int : Z → option float.

(** [float(v)]. *)
Definition py_float (v : json) : result float :=
  match v with
  | JFloat f => Ok f
  | JInt n =>
      match float_of_int n with
      | Some f => Ok f
      | None => Raise OverflowError
      end
  | JBool b => Ok (if b then 1%float else 0%float)
  | JStr s =>
      match float_of_str s with
      | Some f => Ok f
      | None => Raise ValueError
      end
  | _ => Raise TypeError
  end.

(** The body of [try:] in [geocode_location]. *)
Definition geocode_try (reply : result response) : result (float * float) :=
  response <- reply ;;
  _ <- (if status_ok response then Ok () else Raise HTTPError) ;;
  data <- (match decoded response with
           | Some data => Ok data
           | None => Raise JSONDecodeError
           end) ;;
  if truthy data then
    first <- subscript_0 data ;;
    la_v <- subscript first "lat" ;;
    la <- py_float la_v ;;
    first <- subscript_0 data ;;
    lo_v <- subscript first "lon" ;;
    lo <- py_float lo_v ;;
    Ok (la, lo)
  else Ok default_coordinates.

(** [geocode_location]: [except Exception] returns the default. *)
Definition geocode_location (reply : result response)
    : result (float * float) :=
  match geocode_try reply with
  | Ok coordinates => Ok coordinates
  | Raise _ => Ok default_coordinates
  end.

End Geocoder.

(** ** Predicates of the specification *)

(** The attributes that no statement of [remove_duplicates] assigns. *)
Definition same_frame (p q : DogPark) : Prop :=
  name p = name q ∧ lat p = lat q ∧ lng p = lng q ∧
  address p = address q ∧ area_bounds p = area_bounds q ∧
  source p = source q.

(** No record of [unique_parks] is close to one before it. *)
Definition separated (h : list DogPark) (unique_parks : list loc) : Prop :=
  ∀ i j u v, i < j → unique_parks !! i = Some u → unique_parks !! j = Some v →
    is_close (h !!! v) (h !!! u) = false.

(** [park] is close to no record of [unique_parks]. *)
Definition far_from_all (h : list DogPark) (park : loc)
    (unique_parks : list loc) : Prop :=
  Forall (λ u, is_close (h !!! park) (h !!! u) = false) unique_parks.

(** The values added one by one from [total], with the rounding
    errors of the additions added up beside them from [errors]. *)
Fixpoint total_and_errors (total errors : float) (xs : list float)
    : float * float :=
  match xs with
  | [] => (total, errors)
  | x :: rest =>
      let t := (total + x)%float in
      let error :=
        if (abs x <=? abs total)%float
        then ((total - t) + x)%float
        else ((x - t) + total)%float in
      total_and_errors t (errors + error)%float rest
  end.

(** The floating-point total of the values, each counted once: before
    3.12 the values added one by one; from 3.12 on that total and the
    rounding errors of its additions, which are added to it when they
    come to a finite amount other than zero. *)
Definition float_total (xs : list float) : float :=
  match python with
  | Before312 => foldl PrimFloat.add 0%float xs
  | From312 =>
      match xs with
      | [] => 0%float
      | x :: rest =>
          let r := total_and_errors (0 + x)%float 0%float rest in
          if negb (r.2 =? 0)%float && is_finite r.2
          then (r.1 + r.2)%float
          else r.1
      end
  end.

(** The unweighted arithmetic mean of the specification: the total of
    the values over their number. *)
Definition arithmetic_mean (xs : list float) : float :=
  (float_total xs / of_uint63 (Uint63.of_Z (Z.of_nat (length xs))))%float.

(** The node index resolves [node_id] to the coordinate [c]. *)
Definition resolves (nodes_dict : gmap Z element) (node_id : Z)
    (c : float * float) : Prop :=
  ∃ node, nodes_dict !! node_id = Some node ∧
    e_lat node = Some c.1 ∧ e_lon node = Some c.2.

(** Where a record comes from: a point element, an area element with
    the node index it was resolved in, or an entry of the static list. *)
Inductive origin :=
  | FromNode (node : element)
  | FromWay (way : element) (nodes_dict : gmap Z element)
  | FromMadison (i : nat).

(** [park] is the record that the fetcher makes of [o]. *)
Definition fetched (o : origin) (park : DogPark) : Prop :=
  match o with
  | FromNode node => node_park node = Ok park
  | FromWay way nodes_dict => way_park way nodes_dict = Ok (Some park)
  | FromMadison i => madison_parks !! i = Some park
  end.

(** [o] is a source of the run on [reply] and [madison]. *)
Definition source_of (reply : result (list element)) (madison : bool)
    (o : origin) : Prop :=
  match o with
  | FromNode node =>
      ∃ elements, reply = Ok elements ∧ node ∈ elements ∧
        e_type node = "node"
  | FromWay way nodes_dict =>
      ∃ elements, reply = Ok elements ∧ way ∈ elements ∧
        e_type way = "way" ∧ nodes_dict = index_nodes elements
  | FromMadison i => madison = true
  end.

(** The invariant of the data model: latitude and longitude are there,
    and the boundary is there only for a record of an area, where it is
    the resolved ring. *)
Definition geometry_ok (o : origin) (park : DogPark) : Prop :=
  match o with
  | FromNode node =>
      e_lat node = Some (lat park) ∧ e_lon node = Some (lng park) ∧
      area_bounds park = None
  | FromWay way nodes_dict =>
      ∃ ring,
        resolve_coords nodes_dict (default [] (e_nodes way)) = Ok ring ∧
        ring ≠ [] ∧ area_bounds park = Some ring ∧
        lat park = arithmetic_mean ring.*1 ∧
        lng park = arithmetic_mean ring.*2
  | FromMadison i =>
      (∃ p0, madison_parks !! i = Some p0 ∧
         lat park = lat p0 ∧ lng park = lng p0) ∧
      area_bounds park = None
  end.

(** The state of the scraper while the fetchers run: [self.parks]
    holds every object made so far, once and in the order of
    allocation, and each is the record of a source that [ok] admits. *)
Definition fetch_inv (ok : origin → Prop) (st : DogParkScraper) : Prop :=
  parks st = seq 0 (length (objs st)) ∧
  Forall (λ park, ∃ o, ok o ∧ fetched o park) (objs st).

(** ** Sample data *)

(** Three parks along a meridian: [park_east] is 0.0015 degrees north
    of [park_west], too far to be its duplicate; [park_between] is
    0.0008 degrees from the first and 0.0007 from the second. *)
Definition park_west : DogPark :=
  mkDogPark "West" 43.0%float (-89.0)%float "" "" ["Fenced"] None
            "Madison Parks Department".

Definition park_east : DogPark :=
  mkDogPark "East" 43.0015%float (-89.0)%float "East side" ""
            ["Parking"] None "Madison Parks Department".

Definition park_between : DogPark :=
  mkDogPark "Between" 43.0008%float (-89.0)%float "Dog park" "Main St"
            ["Fenced"; "Lighting"] (Some [(43.0008%float, (-89.0)%float)])
            "OpenStreetMap".



(** The elements of the end-to-end scenario of the specification: a
    point [A], an area [B] over the nodes 10 and 11, and these nodes. *)
Definition element_A : element :=
  mkElement "node" 1 (Some 43.08%float) (Some (-89.44)%float)
            (Some (<["name" := "A"]> (<["fence" := "yes"]> ∅))) None.

Definition element_B : element :=
  mkElement "way" 2 None None (Some (<["name" := "B"]> ∅))
            (Some [10; 11]%Z).

Definition node_10 : element :=
  mkElement "node" 10 (Some 43.081%float) (Some (-89.441)%float) None None.

Definition node_11 : element :=
  mkElement "node" 11 (Some 43.083%float) (Some (-89.439)%float) None None.

Definition scenario : list element :=
  [element_A; element_B; node_10; node_11].

(** A point whose [lit] tag says that there is no lighting. *)
Definition element_unlit : element :=
  mkElement "node" 3 (Some 43.08%float) (Some (-89.44)%float)
            (Some (<["lit" := "no"]> ∅)) None.

(** A [float] for the strings of the sample reply. *)
Definition sample_float_of_str (s : string) : option float :=
  if bool_decide (s = "43.0747") then Some 43.0747%float
  else if bool_decide (s = "-89.3837") then Some (-89.3837)%float
  else None.

Definition sample_reply : result response :=
  Ok (mkResponse true
        (Some (JList [JDict [("lat", JStr "43.0747");
                             ("lon", JStr "-89.3837")]]))).

(** ** The summary of [main] *)

(** [sources], the dict that [main] fills from the parks that [run]
    returns: [sources[park.source] = sources.get(park.source, 0) + 1]. *)
Definition summary_by_source (parks : list DogPark) : gmap string nat :=
  foldl (λ sources park,
           <[source park := default 0 (sources !! source park) + 1]> sources)
        ∅ parks.

(** ** Further predicates and sample data *)

(** The elements that the second loop of [scrape_openstreetmap] hands
    to [_process_osm_node] or [_process_osm_way]. *)
Definition is_feature (element : element) : bool :=
  (bool_decide (e_type element = "node") || bool_decide (e_type element = "way"))
  && bool_decide (is_Some (e_tags element)).

(** The coordinate that the node index has for [node_id], if any. *)
Definition node_coordinate (nodes_dict : gmap Z element) (node_id : Z)
    : option (float * float) :=
  node ← nodes_dict !! node_id;
  la ← e_lat node;
  lo ← e_lon node;
  Some (la, lo).

(** A reply with an area [T] over three nodes, which comes before
    them, and an area [G] that also names a node 99 that is not in the
    reply. *)
Definition node_21 : element :=
  mkElement "node" 21 (Some 43.1%float) (Some (-89.1)%float) None None.

Definition node_22 : element :=
  mkElement "node" 22 (Some 43.2%float) (Some (-89.2)%float) None None.

Definition node_23 : element :=
  mkElement "node" 23 (Some 43.3%float) (Some (-89.3)%float) None None.

Definition element_T : element :=
  mkElement "way" 5 None None (Some (<["name" := "T"]> ∅))
            (Some [21; 22; 23]%Z).

Definition element_G : element :=
  mkElement "way" 6 None None (Some (<["name" := "G"]> ∅))
            (Some [21; 99; 22; 23]%Z).

Definition triangle : list element :=
  [element_T; node_21; node_22; node_23].

Definition triangle_ring : list (float * float) :=
  [(43.1%float, (-89.1)%float); (43.2%float, (-89.2)%float);
   (43.3%float, (-89.3)%float)].

(** A tagged point without a latitude. *)
Definition element_no_lat : element :=
  mkElement "node" 4 None (Some (-89.44)%float)
            (Some (<["name" := "C"]> ∅)) None.

(** * Properties *)

(** ** The distance test is symmetric *)

(** Rounding a magnitude does not look at the sign. *)
Lemma SFabs_binary_round prec emax s m e :
  SpecFloat.SFabs (SpecFloat.binary_round prec emax s m e) =
  SpecFloat.SFabs (SpecFloat.binary_round prec emax (negb s) m e).
Proof.
  unfold SpecFloat.binary_round, SpecFloat.binary_round_aux.
  destruct (SpecFloat.shl_align _ _ _) as [mz ez].
  destruct (SpecFloat.shr_fexp _ _ _ _ _) as [mrs1 e1].
  destruct (SpecFloat.shr_fexp _ _ _ _ _) as [mrs2 e2].
  destruct (SpecFloat.shr_m mrs2); try reflexivity.
  by destruct (Z.leb _ _).
Qed.

Lemma SFabs_binary_normalize_opp prec emax m e sz sz' :
  SpecFloat.SFabs (SpecFloat.binary_normalize prec emax m e sz) =
  SpecFloat.SFabs (SpecFloat.binary_normalize prec emax (- m) e sz').
Proof.
  destruct m; simpl; try reflexivity.
  - apply (SFabs_binary_round prec emax false).
  - apply (SFabs_binary_round prec emax true).
Qed.

Lemma SFabs_SFsub_comm prec emax x y :
  SpecFloat.SFabs (SpecFloat.SFsub prec emax x y) =
  SpecFloat.SFabs (SpecFloat.SFsub prec emax y x).
Proof.
  destruct x as [sx|sx| |sx mx ex], y as [sy|sy| |sy my ey]; simpl;
    try reflexivity; try (by destruct sx, sy).
  rewrite (Z.min_comm ey ex).
  rewrite (SFabs_binary_normalize_opp _ _ _ _ false false).
  do 2 f_equal. lia.
Qed.

(** [abs(a - b) == abs(b - a)], in binary64 arithmetic as well. *)
Lemma abs_sub_comm (a b : float) : abs (a - b)%float = abs (b - a)%float.
Proof.
  apply FloatAxioms.Prim2SF_inj.
  rewrite !FloatAxioms.abs_spec, !FloatAxioms.sub_spec.
  apply SFabs_SFsub_comm.
Qed.

Lemma is_close_sym p q : is_close p q = is_close q p.
Proof.
  unfold is_close, lat_diff, lng_diff.
  by rewrite (abs_sub_comm (lat p)), (abs_sub_comm (lng p)).
Qed.

(** ** The frame of a merge *)

#[local] Instance same_frame_refl : Reflexive same_frame.
Proof. by intros p. Qed.

#[local] Instance same_frame_trans : Transitive same_frame.
Proof.
  intros p q r (?&?&?&?&?&?) (?&?&?&?&?&?).
  repeat split; congruence.
Qed.

#[local] Instance same_frame_sym : Symmetric same_frame.
Proof. intros p q (?&?&?&?&?&?). by repeat split. Qed.

Lemma is_close_same_frame p p' u u' :
  same_frame p p' → same_frame u u' → is_close p u = is_close p' u'.
Proof.
  intros (_&Hlat&Hlng&_) (_&Hlat'&Hlng'&_).
  unfold is_close, lat_diff, lng_diff. congruence.
Qed.

Lemma Forall2_same_frame_refl h : Forall2 same_frame h h.
Proof. by apply Forall_Forall2_diag, Forall_forall. Qed.

Lemma Forall2_lookup_total_frame h h' (r : loc) :
  Forall2 same_frame h h' → same_frame (h !!! r) (h' !!! r).
Proof.
  intros HF. rewrite !list_lookup_total_alt.
  by destruct (proj1 (Forall2_lookup _ _ _) HF r).
Qed.

(** ** The deduplicator *)

Section DeduplicationProperties.

Variable list_of_set : list string → list string.

Abbreviation merge_into := (merge_into list_of_set).
Abbreviation scan_unique := (scan_unique list_of_set).
Abbreviation dedup_step := (dedup_step list_of_set).
Abbreviation dedup_loop := (dedup_loop list_of_set).
Abbreviation remove_duplicates := (remove_duplicates list_of_set).

Lemma merge_into_frame park unique_park :
  same_frame (merge_into park unique_park) unique_park.
Proof.
  unfold merge_into.
  destruct (truthy_str (description park) && _), (truthy_list (amenities park));
    by repeat split.
Qed.

Lemma insert_same_frame h (u : loc) x :
  same_frame x (h !!! u) → Forall2 same_frame h (<[u := x]> h).
Proof.
  intros Hx. destruct (h !! u) as [y|] eqn:Hu.
  - rewrite (list_lookup_total_correct _ _ _ Hu) in Hx.
    rewrite <- (list_insert_id h u y) at 1 by done.
    apply Forall2_insert; [apply Forall2_same_frame_refl | done].
  - rewrite list_insert_ge; [apply Forall2_same_frame_refl|].
    by apply lookup_ge_None.
Qed.

Lemma Forall2_same_frame_trans h1 h2 h3 :
  Forall2 same_frame h1 h2 → Forall2 same_frame h2 h3 →
  Forall2 same_frame h1 h3.
Proof. intros H12 H23. by transitivity h2. Qed.

(** The inner loop runs to its end exactly when no kept record is close. *)
Lemma scan_unique_None h park unique_parks :
  scan_unique h park unique_parks = None ↔ far_from_all h park unique_parks.
Proof.
  unfold far_from_all. induction unique_parks as [|u us IH]; simpl.
  - by split.
  - destruct (is_close (h !!! park) (h !!! u)) eqn:Hc.
    + split; [done|]. intros HF. apply Forall_cons in HF as [? _]. congruence.
    + rewrite IH, Forall_cons. tauto.
Qed.

(** It breaks at the first close record, and merges into that one. *)
Lemma scan_unique_Some h park unique_parks h' :
  scan_unique h park unique_parks = Some h' ↔
  ∃ pre u post,
    unique_parks = pre ++ u :: post ∧ far_from_all h park pre ∧
    is_close (h !!! park) (h !!! u) = true ∧
    h' = <[u := merge_into (h !!! park) (h !!! u)]> h.
Proof.
  unfold far_from_all. induction unique_parks as [|u us IH]; simpl.
  - split; [done|]. intros (pre&?&?&Heq&_). by destruct pre.
  - destruct (is_close (h !!! park) (h !!! u)) eqn:Hc.
    + split.
      * intros [= <-]. by exists [], u, us.
      * intros ([|v pre]&w&post&Heq&Hfar&Hw&->); simplify_eq/=; [done|].
        apply Forall_cons in Hfar as [? _]. congruence.
    + rewrite IH. split.
      * intros (pre&w&post&->&?&?&->). exists (u :: pre), w, post.
        by repeat split; [constructor|..].
      * intros ([|v pre]&w&post&Heq&Hfar&Hw&->); simplify_eq/=; [congruence|].
        apply Forall_cons in Hfar as [_ ?]. by exists pre, w, post.
Qed.

Lemma scan_unique_frame h park unique_parks h' :
  scan_unique h park unique_parks = Some h' → Forall2 same_frame h h'.
Proof.
  intros (pre&u&post&_&_&_&->)%scan_unique_Some.
  apply insert_same_frame, merge_into_frame.
Qed.

Lemma dedup_step_far h unique_parks park :
  far_from_all h park unique_parks →
  dedup_step (h, unique_parks) park = (h, unique_parks ++ [park]).
Proof.
  intros Hfar%scan_unique_None. unfold dedup_step. simpl. by rewrite Hfar.
Qed.

Lemma dedup_step_close h pre u post park :
  far_from_all h park pre →
  is_close (h !!! park) (h !!! u) = true →
  dedup_step (h, pre ++ u :: post) park =
    (<[u := merge_into (h !!! park) (h !!! u)]> h, pre ++ u :: post).
Proof.
  intros Hfar Hc. unfold dedup_step. simpl.
  assert (scan_unique h park (pre ++ u :: post) =
          Some (<[u := merge_into (h !!! park) (h !!! u)]> h)) as ->; [|done].
  apply scan_unique_Some. by exists pre, u, post.
Qed.

Lemma dedup_loop_snoc h unique_parks todo park :
  dedup_loop h unique_parks (todo ++ [park]) =
  dedup_step (dedup_loop h unique_parks todo) park.
Proof. apply foldl_snoc. Qed.

Lemma far_from_all_frame h h' park unique_parks :
  Forall2 same_frame h h' →
  far_from_all h park unique_parks → far_from_all h' park unique_parks.
Proof.
  intros HF Hfar. eapply Forall_impl; [exact Hfar|]. intros u <-. symmetry.
  apply is_close_same_frame; by apply Forall2_lookup_total_frame.
Qed.

Lemma separated_frame h h' unique_parks :
  Forall2 same_frame h h' →
  separated h unique_parks → separated h' unique_parks.
Proof.
  intros HF Hsep i j u v Hij Hu Hv. rewrite <- (Hsep i j u v Hij Hu Hv).
  symmetry. apply is_close_same_frame; by apply Forall2_lookup_total_frame.
Qed.

Lemma separated_nil h : separated h [].
Proof. by intros i j u v _ ?. Qed.

Lemma separated_snoc h unique_parks park :
  separated h (unique_parks ++ [park]) ↔
  separated h unique_parks ∧ far_from_all h park unique_parks.
Proof.
  split.
  - intros Hsep. split.
    + intros i j u v Hij Hu Hv.
      apply (Hsep i j u v Hij); by apply lookup_app_l_Some.
    + apply Forall_lookup. intros i u Hu.
      apply (Hsep i (length unique_parks) u park).
      * by eapply lookup_lt_Some.
      * by apply lookup_app_l_Some.
      * by rewrite list_lookup_middle.
  - intros [Hsep Hfar] i j u v Hij Hu Hv.
    apply lookup_snoc_Some in Hv as [[Hj Hv]|[-> <-]].
    + apply (Hsep i j u v Hij); [|done].
      rewrite lookup_app_l in Hu; [done|lia].
    + rewrite lookup_app_l in Hu by done.
      by apply (proj1 (Forall_lookup _ _) Hfar i u).
Qed.

Lemma separated_app_far h pre park post :
  separated h (pre ++ park :: post) → far_from_all h park pre.
Proof.
  intros Hsep. apply Forall_lookup. intros i u Hu.
  apply (Hsep i (length pre) u park).
  - by eapply lookup_lt_Some.
  - by apply lookup_app_l_Some.
  - by rewrite list_lookup_middle.
Qed.

(** What one iteration of the outer loop keeps. *)
Lemma dedup_step_inv h unique_parks park :
  let r := dedup_step (h, unique_parks) park in
  Forall2 same_frame h r.1 ∧
  (∃ kept, r.2 = unique_parks ++ kept ∧ kept `sublist_of` [park]) ∧
  (separated h unique_parks → separated r.1 r.2).
Proof.
  unfold dedup_step. simpl.
  destruct (scan_unique h park unique_parks) as [h'|] eqn:Hscan; simpl.
  - apply scan_unique_frame in Hscan. split_and!; [done| |].
    + exists []. split; [by rewrite app_nil_r | apply sublist_nil_l].
    + by apply separated_frame.
  - apply scan_unique_None in Hscan. split_and!.
    + apply Forall2_same_frame_refl.
    + by exists [park].
    + intros Hsep. by apply separated_snoc.
Qed.

(** What the outer loop keeps. *)
Lemma dedup_loop_inv h unique_parks todo :
  let r := dedup_loop h unique_parks todo in
  Forall2 same_frame h r.1 ∧
  (∃ kept, r.2 = unique_parks ++ kept ∧ kept `sublist_of` todo) ∧
  (separated h unique_parks → separated r.1 r.2).
Proof.
  revert h unique_parks. induction todo as [|park todo IH]; intros h us; simpl.
  - split_and!; [apply Forall2_same_frame_refl| |done].
    exists []. by rewrite app_nil_r.
  - destruct (dedup_step_inv h us park) as (HF&(kept&Hkept&Hsub)&Hsep).
    destruct (dedup_step (h, us) park) as [h1 us1] eqn:Hstep. simpl in *.
    unfold dedup_loop in *. simpl. rewrite Hstep.
    destruct (IH h1 us1) as (HF'&(kept'&Hkept'&Hsub')&Hsep').
    split_and!.
    + by eapply Forall2_same_frame_trans.
    + exists (kept ++ kept'). rewrite Hkept', Hkept, <- (assoc_L (++)).
      split; [done|]. by apply (sublist_app _ [park]).
    + auto.
Qed.

(** On records that are separated already the loop appends them all
    and writes nothing. *)
Lemma dedup_loop_separated h pre post :
  separated h (pre ++ post) → dedup_loop h pre post = (h, pre ++ post).
Proof.
  revert pre. induction post as [|park post IH]; intros pre Hsep.
  - by rewrite app_nil_r.
  - unfold dedup_loop in *. simpl.
    rewrite dedup_step_far by by eapply separated_app_far.
    rewrite IH; by rewrite <- (assoc_L (++)).
Qed.

(** Every record the loop has gone through is kept or close to a kept
    one. *)
Lemma dedup_loop_covers h unique_parks todo park :
  park ∈ todo →
  let r := dedup_loop h unique_parks todo in
  park ∈ r.2 ∨ ∃ u, u ∈ r.2 ∧ is_close (r.1 !!! park) (r.1 !!! u) = true.
Proof.
  revert park. induction todo as [|p todo IH] using rev_ind; intros park Hin.
  { by apply elem_of_nil in Hin. }
  simpl. rewrite dedup_loop_snoc.
  destruct (dedup_loop h unique_parks todo) as [h1 us1] eqn:Hloop.
  pose proof (dedup_step_inv h1 us1 p) as (HF&(kept&Hkept&_)&_).
  assert (∀ q, (q ∈ us1 ∨ ∃ u, u ∈ us1 ∧ is_close (h1 !!! q) (h1 !!! u) = true) →
    q ∈ (dedup_step (h1, us1) p).2 ∨
    ∃ u, u ∈ (dedup_step (h1, us1) p).2 ∧
      is_close ((dedup_step (h1, us1) p).1 !!! q)
               ((dedup_step (h1, us1) p).1 !!! u) = true) as Hmono.
  { intros q [Hq|(u&Hu&Hc)]; rewrite Hkept.
    - left. apply elem_of_app. by left.
    - right. exists u. split; [apply elem_of_app; by left|].
      rewrite <- Hc. symmetry.
      apply is_close_same_frame; by apply Forall2_lookup_total_frame. }
  apply elem_of_app in Hin as [Hin|Hin%list_elem_of_singleton].
  - apply Hmono. by apply IH.
  - subst park. clear Hmono HF kept Hkept IH.
    unfold dedup_step. simpl.
    destruct (scan_unique h1 p us1) as [h'|] eqn:Hscan; simpl.
    + pose proof (scan_unique_frame _ _ _ _ Hscan) as HF.
      apply scan_unique_Some in Hscan as (pre&u&post&->&_&Hc&_).
      right. exists u. split; [apply elem_of_app; right; by left|].
      rewrite <- Hc. symmetry.
      apply is_close_same_frame; by apply Forall2_lookup_total_frame.
    + left. apply elem_of_app. right. by left.
Qed.

Lemma merge_into_NoDup park unique_park :
  list_of_set_spec list_of_set →
  NoDup (amenities unique_park) →
  NoDup (amenities (merge_into park unique_park)).
Proof.
  intros Hset Hnd. unfold merge_into.
  destruct (truthy_list (amenities park)); simpl; [apply Hset|].
  by destruct (truthy_str (description park) && _).
Qed.

(** The amenity lists of the store stay free of duplicates. *)
Lemma dedup_loop_NoDup h unique_parks todo :
  list_of_set_spec list_of_set →
  Forall (λ park, NoDup (amenities park)) h →
  Forall (λ park, NoDup (amenities park)) (dedup_loop h unique_parks todo).1.
Proof.
  intros Hset. revert h unique_parks.
  induction todo as [|park todo IH]; intros h us Hnd; [done|].
  unfold dedup_loop in *. simpl. unfold dedup_step at 2. simpl.
  destruct (scan_unique h park us) as [h'|] eqn:Hscan; [|by apply IH].
  apply IH. apply scan_unique_Some in Hscan as (pre&u&post&_&_&_&->).
  destruct (h !! u) as [q|] eqn:Hu.
  - rewrite (list_lookup_total_correct _ _ _ Hu).
    apply Forall_insert; [done|]. apply merge_into_NoDup; [done|].
    by apply (proj1 (Forall_lookup _ _) Hnd u).
  - rewrite list_insert_ge; [done|]. by apply lookup_ge_None.
Qed.

(** C3: running [remove_duplicates] again on its own output changes
    nothing: the same references in the same order, to objects with the
    same field values, hence the same exported records. *)
Theorem remove_duplicates_idempotent st :
  remove_duplicates (remove_duplicates st) = remove_duplicates st ∧
  exported (remove_duplicates (remove_duplicates st)) =
    exported (remove_duplicates st).
Proof.
  assert (remove_duplicates (remove_duplicates st) = remove_duplicates st)
    as Heq; [|by rewrite Heq].
  unfold remove_duplicates. simpl.
  destruct (dedup_loop_inv (objs st) [] (parks st)) as (_&_&Hsep).
  specialize (Hsep (separated_nil _)).
  destruct (dedup_loop (objs st) [] (parks st)) as [h us]. simpl in *.
  by rewrite (dedup_loop_separated h [] us).
Qed.

(** C4: a merge leaves name, latitude, longitude, address, area_bounds
    and source of the existing record as they are, and so does a whole
    run of [remove_duplicates], for every object of the store: at each
    address the object before and the object after differ in
    description and amenities at most. *)
Theorem remove_duplicates_frame st park unique_park :
  same_frame (merge_into park unique_park) unique_park ∧
  length (objs (remove_duplicates st)) = length (objs st) ∧
  ∀ (r : loc) p, objs st !! r = Some p →
    ∃ p', objs (remove_duplicates st) !! r = Some p' ∧
      name p' = name p ∧ lat p' = lat p ∧ lng p' = lng p ∧
      address p' = address p ∧ area_bounds p' = area_bounds p ∧
      source p' = source p.
Proof.
  split; [apply merge_into_frame|].
  destruct (dedup_loop_inv (objs st) [] (parks st)) as (HF&_&_).
  unfold remove_duplicates. simpl. split.
  - symmetry. by eapply Forall2_length.
  - intros r p Hp.
    destruct (Forall2_lookup_l _ _ _ _ _ HF Hp) as (p'&Hp'&Hfr).
    exists p'. split; [done|]. by destruct Hfr as (?&?&?&?&?&?).
Qed.

Lemma dedup_loop_app h unique_parks todo1 todo2 :
  dedup_loop h unique_parks (todo1 ++ todo2) =
  dedup_loop (dedup_loop h unique_parks todo1).1
             (dedup_loop h unique_parks todo1).2 todo2.
Proof.
  unfold dedup_loop. rewrite foldl_app.
  by destruct (foldl dedup_step (h, unique_parks) todo1).
Qed.

(** What becomes of the record at one place of the input: the records
    kept before it are those that deduplication keeps of the records
    before it; the record is kept, right after them, when it is close
    to none of them, and dropped when it is close to one. *)
Lemma dedup_loop_at h pre park post :
  ∃ kept_after,
    kept_after `sublist_of` post ∧
    ((far_from_all h park (dedup_loop h [] pre).2 ∧
      (dedup_loop h [] (pre ++ park :: post)).2 =
        (dedup_loop h [] pre).2 ++ park :: kept_after) ∨
     ((∃ u, u ∈ (dedup_loop h [] pre).2 ∧
         is_close (h !!! park) (h !!! u) = true) ∧
      (dedup_loop h [] (pre ++ park :: post)).2 =
        (dedup_loop h [] pre).2 ++ kept_after)).
Proof.
  rewrite dedup_loop_app.
  destruct (dedup_loop_inv h [] pre) as (HF&_&_).
  destruct (dedup_loop h [] pre) as [h1 us1]. simpl in *.
  assert (dedup_loop h1 us1 (park :: post) =
          dedup_loop (dedup_step (h1, us1) park).1
                     (dedup_step (h1, us1) park).2 post) as ->.
  { unfold dedup_loop. simpl. by destruct (dedup_step _ _). }
  unfold dedup_step. simpl.
  destruct (scan_unique h1 park us1) as [h2|] eqn:Hscan; simpl.
  - destruct (dedup_loop_inv h2 us1 post) as (_&(kept&Hkept&Hsub)&_).
    exists kept. split; [done|]. right. split; [|done].
    apply scan_unique_Some in Hscan as (pre'&u&post'&->&_&Hc&_).
    exists u. split; [apply elem_of_app; right; by left|].
    rewrite <- Hc. apply is_close_same_frame;
      by apply Forall2_lookup_total_frame.
  - destruct (dedup_loop_inv h1 (us1 ++ [park]) post)
      as (_&(kept&Hkept&Hsub)&_).
    exists kept. split; [done|]. left. split.
    + apply scan_unique_None in Hscan.
      eapply far_from_all_frame; [|exact Hscan]. by symmetry.
    + by rewrite Hkept, <- (assoc_L (++)).
Qed.

(** C10: in the output of [remove_duplicates] no two records, at
    different positions, are close: for no two of them are both the
    absolute latitude difference and the absolute longitude difference
    below 0.001; the output references are a subsequence of the input
    references (the objects kept are objects of the input, in their
    order); every input record is kept or close to a kept one; and the
    kept records are the first-seen ones: at every place of the input,
    the records kept before it are those that deduplication keeps of
    the input before it, and the record at that place is kept, right
    after them, exactly when it is close to none of them, and dropped
    when it is close to one of them. *)
Theorem remove_duplicates_separated st :
  let st' := remove_duplicates st in
  (∀ i j p q, i ≠ j →
     exported st' !! i = Some p → exported st' !! j = Some q →
     ((lat_diff q p <? threshold)%float &&
      (lng_diff q p <? threshold)%float) = false) ∧
  parks st' `sublist_of` parks st ∧
  (∀ park, park ∈ parks st →
     park ∈ parks st' ∨
     ∃ u, u ∈ parks st' ∧
       is_close (objs st' !!! park) (objs st' !!! u) = true) ∧
  (∀ pre park post, parks st = pre ++ park :: post →
     let kept_before :=
       parks (remove_duplicates (mkScraper (objs st) pre)) in
     ∃ kept_after,
       kept_after `sublist_of` post ∧
       ((far_from_all (objs st) park kept_before ∧
         parks st' = kept_before ++ park :: kept_after) ∨
        ((∃ u, u ∈ kept_before ∧
            is_close (objs st !!! park) (objs st !!! u) = true) ∧
         parks st' = kept_before ++ kept_after))).
Proof.
  simpl. unfold remove_duplicates, exported. simpl.
  destruct (dedup_loop_inv (objs st) [] (parks st))
    as (_&(kept&Hkept&Hsub)&Hsep).
  specialize (Hsep (separated_nil _)).
  set (r := dedup_loop (objs st) [] (parks st)) in *.
  split_and!.
  - intros i j p q Hij Hp Hq.
    apply list_lookup_fmap_Some in Hp as (u&->&Hu).
    apply list_lookup_fmap_Some in Hq as (v&->&Hv).
    destruct (decide (i < j)) as [Hlt|Hge].
    + apply (Hsep i j u v Hlt Hu Hv).
    + fold (is_close (r.1 !!! v) (r.1 !!! u)). rewrite is_close_sym.
      apply (Hsep j i v u); [lia|done..].
  - by rewrite Hkept.
  - intros park Hin. by apply (dedup_loop_covers _ [] _ park).
  - intros pre park post Hparks. subst r. rewrite Hparks.
    apply dedup_loop_at.
Qed.

Lemma truthy_str_spec s : truthy_str s = true ↔ s ≠ "".
Proof. by destruct s. Qed.

Lemma truthy_list_spec {A} (l : list A) : truthy_list l = true ↔ l ≠ [].
Proof. by destruct l. Qed.




(** C2: when a record [park] is merged into the accumulated record
    [unique_park], the object [unique_park] gets the description of
    [park] exactly when its own is empty and that of [park] is not, and
    keeps its own otherwise; its amenities become the union of the two
    amenity sets: the elements of either list, and no element twice
    when [park] has amenities or the list of [unique_park] had none
    twice (order left to [list(set(...))]). *)
Theorem merge_description_amenities h pre u post park p q :
  list_of_set_spec list_of_set →
  h !! park = Some p → h !! u = Some q →
  far_from_all h park pre → is_close p q = true →
  ∃ merged,
    dedup_step (h, pre ++ u :: post) park =
      (<[u := merged]> h, pre ++ u :: post) ∧
    <[u := merged]> h !! u = Some merged ∧
    description merged =
      (if decide (description q = "" ∧ description p ≠ "")
       then description p else description q) ∧
    (∀ x, x ∈ amenities merged ↔ x ∈ amenities q ∨ x ∈ amenities p) ∧
    (NoDup (amenities q) ∨ amenities p ≠ [] → NoDup (amenities merged)).
Proof.
  intros Hset Hp Hq Hfar Hc.
  pose proof (list_lookup_total_correct _ _ _ Hp) as Hp'.
  pose proof (list_lookup_total_correct _ _ _ Hq) as Hq'.
  exists (merge_into p q). split_and!.
  - rewrite dedup_step_close; rewrite ?Hp', ?Hq'; done.
  - apply list_lookup_insert_eq. by eapply lookup_lt_Some.
  - unfold merge_into.
    assert (description
              (if truthy_str (description p) && negb (truthy_str (description q))
               then set_description (description p) q else q) =
            if decide (description q = "" ∧ description p ≠ "")
            then description p else description q) as Hd.
    { destruct (decide (description q = "" ∧ description p ≠ ""))
        as [[Hq0 Hp0]|Hn].
      - apply truthy_str_spec in Hp0. by rewrite Hp0, Hq0.
      - destruct (truthy_str (description p)) eqn:Htp; [|done].
        destruct (truthy_str (description q)) eqn:Htq; [done|].
        destruct Hn. split; [by destruct (description q)|].
        by apply truthy_str_spec. }
    destruct (truthy_list (amenities p)); simpl; exact Hd.
  - intros x. unfold merge_into.
    destruct (amenities p) as [|y ys] eqn:Hap; simpl.
    + destruct (truthy_str (description p) && _); simpl;
        rewrite elem_of_nil; tauto.
    + rewrite (proj2 (Hset _)), elem_of_app.
      by destruct (truthy_str (description p) && _).
  - intros Hnd. unfold merge_into.
    destruct (amenities p) as [|y ys] eqn:Hap; simpl.
    + destruct Hnd as [Hnd|?]; [|done].
      by destruct (truthy_str (description p) && _).
    + apply Hset.
Qed.

End DeduplicationProperties.

(** ** The builtin [sum] and the mean *)

Lemma foldl_compensate total errors xs :
  foldl compensate (total, errors) xs = total_and_errors total errors xs.
Proof.
  revert total errors. induction xs as [|x xs IH]; intros total errors;
    [done|].
  simpl. rewrite <- IH. f_equal. unfold compensate. simpl.
  by destruct (abs x <=? abs total)%float.
Qed.

(** The list of the first, or of the second, components of a list of
    coordinates is as long as that list. *)
Ltac solve_length :=
  simpl; rewrite ?length_map, ?length_fmap; done.

(** What [sum(xs) / len(coords)] computes is the mean of [xs]. *)
Lemma py_sum_mean {A} (xs : list float) (coords : list A) :
  length coords = length xs →
  (py_sum xs / float_of_len coords)%float = arithmetic_mean xs.
Proof.
  intros Hlen. unfold arithmetic_mean, float_of_len. rewrite Hlen. f_equal.
  unfold py_sum, float_total. destruct python; [done|].
  destruct xs as [|x xs]; [done|].
  unfold sum_compensated. by rewrite foldl_compensate.
Qed.

(** ** The Overpass fetcher *)

Lemma resolve_coords_unresolved nodes_dict nodes :
  Forall (λ node_id, nodes_dict !! node_id = None) nodes →
  resolve_coords nodes_dict nodes = Ok [].
Proof.
  induction 1 as [|node_id nodes Hnone _ IH]; simpl; [done|].
  by rewrite Hnone.
Qed.

Lemma resolve_coords_resolved nodes_dict nodes ring :
  Forall2 (resolves nodes_dict) nodes ring →
  resolve_coords nodes_dict nodes = Ok ring.
Proof.
  induction 1 as [|node_id [la lo] nodes ring (node&Hn&Hla&Hlo) _ IH];
    simpl in *; [done|].
  by rewrite Hn, Hla, Hlo, IH.
Qed.

(** C6: a way with no node list, an empty node list, or node IDs of
    which the node index has none, yields no park: [_process_osm_way]
    returns without an exception and leaves the scraper as it was. *)
Theorem way_without_coordinates_skipped st way nodes_dict :
  Forall (λ node_id, nodes_dict !! node_id = None) (default [] (e_nodes way)) →
  way_park way nodes_dict = Ok None ∧
  _process_osm_way st way nodes_dict = Ok st.
Proof.
  intros Hnone.
  assert (way_park way nodes_dict = Ok None) as Hw.
  { unfold way_park. destruct (default [] (e_nodes way)) as [|n ns];
      [done|]. simpl negb. cbv iota.
    by rewrite resolve_coords_unresolved. }
  split; [done|]. unfold _process_osm_way. by rewrite Hw.
Qed.

(** C5: for a way with a non-empty node list all of whose node IDs the
    node index resolves, to the coordinates [ring] in the order of the
    node list, [_process_osm_way] puts one new park at the end of
    [self.parks], and nothing else: its latitude and longitude are the
    unweighted arithmetic means of the latitudes and of the longitudes
    of [ring], as the interpreter adds and divides floats, and its
    area_bounds is [ring]. *)
Theorem way_centroid_and_boundary st way nodes_dict nodes ring :
  e_nodes way = Some nodes → nodes ≠ [] →
  Forall2 (resolves nodes_dict) nodes ring →
  ∃ park st',
    _process_osm_way st way nodes_dict = Ok st' ∧
    objs st' = objs st ++ [park] ∧
    parks st' = parks st ++ [length (objs st)] ∧
    lat park = arithmetic_mean ring.*1 ∧
    lng park = arithmetic_mean ring.*2 ∧
    area_bounds park = Some ring.
Proof.
  intros Hnodes Hne Hres.
  pose proof (resolve_coords_resolved _ _ _ Hres) as Hcoords.
  unfold _process_osm_way, way_park. rewrite Hnodes. simpl.
  destruct nodes as [|n ns]; [done|]. simpl truthy_list. simpl negb.
  cbv iota. rewrite Hcoords. simpl bind.
  destruct ring as [|c ring]; [by apply Forall2_length in Hres|].
  simpl truthy_list. simpl negb. cbv iota.
  eexists _, _. split; [reflexivity|].
  unfold append_park. cbn [objs parks lat lng area_bounds].
  split_and!; try done.
  all: cbn [lat lng]; by rewrite py_sum_mean by solve_length.
Qed.

Lemma collect_amenities_elem tags label :
  label ∈ collect_amenities tags ↔
    (label = "Water fountain" ∧ tags !! "drinking_water" = Some "yes") ∨
    (label = "Lighting" ∧ tags !! "lit" = Some "yes") ∨
    (label = "Fenced" ∧ tags !! "fence" = Some "yes") ∨
    (label = "Restrooms" ∧ tags !! "toilets" = Some "yes").
Proof.
  unfold collect_amenities, tag_yes.
  repeat case_bool_decide; simpl;
    rewrite ?elem_of_cons, elem_of_nil; intuition congruence.
Qed.

Lemma node_park_amenities node park :
  node_park node = Ok park →
  amenities park = collect_amenities (default ∅ (e_tags node)).
Proof.
  unfold node_park. destruct (e_lat node), (e_lon node); simpl; [|done..].
  by intros [= <-].
Qed.

Lemma way_park_inv way nodes_dict park :
  way_park way nodes_dict = Ok (Some park) →
  ∃ ring,
    resolve_coords nodes_dict (default [] (e_nodes way)) = Ok ring ∧
    ring ≠ [] ∧ area_bounds park = Some ring ∧
    lat park = arithmetic_mean ring.*1 ∧
    lng park = arithmetic_mean ring.*2 ∧
    amenities park = collect_amenities (default ∅ (e_tags way)).
Proof.
  unfold way_park.
  destruct (default [] (e_nodes way)) as [|n ns]; [done|].
  simpl negb. cbv iota.
  destruct (resolve_coords nodes_dict (n :: ns)) as [[|c ring]|]; [done| |done].
  simpl. intros [= <-]. exists (c :: ring). simpl.
  by rewrite !py_sum_mean by solve_length.
Qed.

(** C7, as the code has it: the amenities of the park made of a node or
    of a way are decided by four tag keys, drinking_water, lit, fence
    and toilets; each of the labels Water fountain, Lighting, Fenced and
    Restrooms is there exactly when its key is there with the value
    yes, and nothing else is ever there. *)
Theorem osm_amenities_mapping e nodes_dict park label :
  node_park e = Ok park ∨ way_park e nodes_dict = Ok (Some park) →
  let tags := default ∅ (e_tags e) in
  label ∈ amenities park ↔
    (label = "Water fountain" ∧ tags !! "drinking_water" = Some "yes") ∨
    (label = "Lighting" ∧ tags !! "lit" = Some "yes") ∨
    (label = "Fenced" ∧ tags !! "fence" = Some "yes") ∨
    (label = "Restrooms" ∧ tags !! "toilets" = Some "yes").
Proof.
  intros Hpark. simpl. rewrite <- collect_amenities_elem.
  destruct Hpark as [Hn|Hw].
  - by rewrite (node_park_amenities _ _ Hn).
  - apply way_park_inv in Hw as (ring&_&_&_&_&_&Ham). by rewrite Ham.
Qed.

(** ** The invariant of the data model *)

Lemma node_park_geometry node park :
  node_park node = Ok park → geometry_ok (FromNode node) park.
Proof.
  unfold node_park, geometry_ok.
  destruct (e_lat node), (e_lon node); simpl; [|done..].
  by intros [= <-].
Qed.

Lemma way_park_geometry way nodes_dict park :
  way_park way nodes_dict = Ok (Some park) →
  geometry_ok (FromWay way nodes_dict) park.
Proof.
  intros (ring&?&?&?&?&?&_)%way_park_inv. by exists ring.
Qed.

Lemma madison_parks_no_bounds :
  Forall (λ park, area_bounds park = None) madison_parks.
Proof. by repeat constructor. Qed.

Lemma madison_geometry i park :
  madison_parks !! i = Some park → geometry_ok (FromMadison i) park.
Proof.
  intros Hi. split; [by exists park|].
  by apply (proj1 (Forall_lookup _ _) madison_parks_no_bounds i).
Qed.

Lemma fetched_geometry o park : fetched o park → geometry_ok o park.
Proof.
  destruct o; simpl.
  - apply node_park_geometry.
  - apply way_park_geometry.
  - apply madison_geometry.
Qed.

Lemma geometry_ok_same_frame o p p' :
  same_frame p p' → geometry_ok o p → geometry_ok o p'.
Proof.
  intros (_&Hlat&Hlng&_&Hab&_). destruct o; simpl.
  - by rewrite Hlat, Hlng, Hab.
  - intros (ring&?&?&?&?&?). exists ring. by rewrite <- Hlat, <- Hlng, <- Hab.
  - by rewrite Hlat, Hlng, Hab.
Qed.

Lemma fetch_inv_init ok : fetch_inv ok init.
Proof. by split. Qed.

Lemma fetch_inv_append ok st o park :
  fetch_inv ok st → ok o → fetched o park →
  fetch_inv ok (append_park st park).
Proof.
  intros [Hparks Hobjs] Hok Hf. split; simpl.
  - by rewrite length_app, Nat.add_1_r, seq_S, Hparks.
  - apply Forall_app. split; [done|]. constructor; [|done]. by exists o.
Qed.

Lemma fetch_inv_process_elements madison elements rest st :
  rest ⊆ elements →
  fetch_inv (source_of (Ok elements) madison) st →
  fetch_inv (source_of (Ok elements) madison)
            (process_elements (index_nodes elements) st rest).
Proof.
  revert st. induction rest as [|element rest IH]; intros st Hsub Hinv;
    simpl; [done|].
  assert (element ∈ elements) as Hin by (apply Hsub; by left).
  assert (rest ⊆ elements) as Hsub' by (intros x ?; apply Hsub; by right).
  destruct (process_element (index_nodes elements) st element)
    as [st'|] eqn:Hstep; [|done].
  apply IH; [done|]. revert Hstep. unfold process_element.
  destruct (bool_decide (e_type element = "node") && _) eqn:Hnode.
  { apply andb_prop in Hnode as [Htype%bool_decide_eq_true _].
    unfold _process_osm_node.
    destruct (node_park element) as [park|] eqn:Hpark; simpl; [|done].
    intros [= <-].
    apply (fetch_inv_append _ _ (FromNode element)); [done| |done].
    by exists elements. }
  destruct (bool_decide (e_type element = "way") && _) eqn:Hway;
    [|by intros [= <-]].
  apply andb_prop in Hway as [Htype%bool_decide_eq_true _].
  unfold _process_osm_way.
  destruct (way_park element (index_nodes elements)) as [[park|]|] eqn:Hpark;
    simpl; [|by intros [= <-]|done].
  intros [= <-].
  apply (fetch_inv_append _ _ (FromWay element (index_nodes elements)));
    [done| |done].
  by exists elements.
Qed.

Lemma fetch_inv_scrape_openstreetmap reply madison st :
  fetch_inv (source_of reply madison) st →
  fetch_inv (source_of reply madison) (scrape_openstreetmap reply st).
Proof.
  destruct reply as [elements|]; simpl; [|done].
  by apply fetch_inv_process_elements.
Qed.

Lemma fetch_inv_foldl_append ok st new :
  Forall (λ park, ∃ o, ok o ∧ fetched o park) new →
  fetch_inv ok st → fetch_inv ok (foldl append_park st new).
Proof.
  intros Hnew. revert st.
  induction Hnew as [|park new (o&Hok&Hf) _ IH]; intros st Hinv; simpl;
    [done|].
  by apply IH, (fetch_inv_append _ _ o).
Qed.

Lemma fetch_inv_scrape_madison_parks reply st :
  fetch_inv (source_of reply true) st →
  fetch_inv (source_of reply true) (_scrape_madison_parks st).
Proof.
  apply fetch_inv_foldl_append, Forall_lookup. intros i park Hi.
  by exists (FromMadison i).
Qed.

(** The references that deduplication keeps are references to objects
    of the store. *)
Lemma fetch_inv_exported_lookup list_of_set ok st park :
  fetch_inv ok st →
  park ∈ exported (remove_duplicates list_of_set st) →
  ∃ (r : loc) p0,
    objs st !! r = Some p0 ∧
    objs (remove_duplicates list_of_set st) !! r = Some park.
Proof.
  intros [Hparks _]. unfold exported, remove_duplicates. simpl.
  destruct (dedup_loop_inv list_of_set (objs st) [] (parks st))
    as (HF&(kept&Hkept&Hsub)&_).
  destruct (dedup_loop list_of_set (objs st) [] (parks st)) as [h us].
  simpl in *. subst us. intros (r&->&Hr)%list_elem_of_fmap.
  assert (r ∈ parks st) as Hin by by eapply elem_of_sublist.
  rewrite Hparks in Hin. apply elem_of_seq in Hin as [_ Hlt]. simpl in Hlt.
  destruct (lookup_lt_is_Some_2 (objs st) r Hlt) as [p0 Hp0].
  destruct (Forall2_lookup_l _ _ _ _ _ HF Hp0) as (p'&Hp'&_).
  exists r, p0. by rewrite (list_lookup_total_correct _ _ _ Hp').
Qed.

(** After deduplication every exported record is, up to description
    and amenities, a record that a fetcher made. *)
Lemma fetch_inv_exported list_of_set ok st :
  fetch_inv ok st →
  Forall (λ park, ∃ o p0, ok o ∧ fetched o p0 ∧ same_frame p0 park)
         (exported (remove_duplicates list_of_set st)).
Proof.
  intros Hinv. apply Forall_forall. intros park Hin.
  destruct (fetch_inv_exported_lookup _ _ _ _ Hinv Hin) as (r&p0&Hp0&Hp).
  destruct (dedup_loop_inv list_of_set (objs st) [] (parks st)) as (HF&_&_).
  destruct (Forall2_lookup_l _ _ _ _ _ HF Hp0) as (p'&Hp'&Hfr).
  unfold remove_duplicates in Hp. simpl in Hp. simplify_eq.
  destruct Hinv as [_ Hobjs].
  destruct (proj1 (Forall_lookup _ _) Hobjs r p0 Hp0) as (o&Hok&Hf).
  by exists o, p0.
Qed.

Lemma collect_amenities_NoDup tags : NoDup (collect_amenities tags).
Proof.
  unfold collect_amenities, tag_yes.
  repeat case_bool_decide; simpl; by apply (bool_decide_unpack _).
Qed.

Lemma madison_parks_NoDup :
  Forall (λ park, NoDup (amenities park)) madison_parks.
Proof. repeat constructor; by apply (bool_decide_unpack _). Qed.

(** The amenities of a fetched record are a set already. *)
Lemma fetched_amenities_NoDup o park :
  fetched o park → NoDup (amenities park).
Proof.
  destruct o; simpl.
  - intros ->%node_park_amenities. apply collect_amenities_NoDup.
  - intros (?&_&_&_&_&_&->)%way_park_inv. apply collect_amenities_NoDup.
  - intros Hi. by apply (proj1 (Forall_lookup _ _) madison_parks_NoDup i).
Qed.

(** And so are the amenities of every record that [run] exports. *)
Lemma run_amenities_NoDup list_of_set reply madison :
  list_of_set_spec list_of_set →
  Forall (λ park, NoDup (amenities park))
         (exported (run list_of_set reply madison)).
Proof.
  intros Hset. unfold run.
  set (st := if madison then _ else _).
  assert (fetch_inv (source_of reply madison) st) as Hinv.
  { pose proof (fetch_inv_scrape_openstreetmap reply madison init
                  (fetch_inv_init _)) as Hosm.
    subst st. destruct madison; [|done].
    by apply fetch_inv_scrape_madison_parks. }
  apply Forall_forall. intros park Hin.
  destruct (fetch_inv_exported_lookup _ _ _ _ Hinv Hin) as (r&p0&_&Hp).
  assert (Forall (λ park, NoDup (amenities park))
            (objs (remove_duplicates list_of_set st))) as Hnd.
  { apply dedup_loop_NoDup; [done|]. destruct Hinv as [_ Hobjs].
    eapply Forall_impl; [exact Hobjs|].
    intros p (o&_&Hf). by eapply fetched_amenities_NoDup. }
  by apply (proj1 (Forall_lookup _ _) Hnd r).
Qed.

(** C9: every record that a fetcher makes (of a point element, of an
    area element, of the static Madison list) has its latitude and
    longitude, and an area_bounds only when it is made of an area
    element, where area_bounds is the resolved ring; deduplication keeps
    this at every object, and it holds of every record that [run]
    exports, each of which is, up to description and amenities, a
    record made of one of the sources of the run. *)
Theorem exported_geometry_invariant list_of_set reply madison :
  (∀ o park, fetched o park → geometry_ok o park) ∧
  (∀ st o (r : loc) park,
     objs st !! r = Some park → geometry_ok o park →
     ∃ park', objs (remove_duplicates list_of_set st) !! r = Some park' ∧
       geometry_ok o park') ∧
  Forall (λ park, ∃ o p0,
            source_of reply madison o ∧ fetched o p0 ∧
            same_frame p0 park ∧ geometry_ok o park)
         (exported (run list_of_set reply madison)).
Proof.
  split_and!.
  - apply fetched_geometry.
  - intros st o r park Hr Hgeo.
    destruct (dedup_loop_inv list_of_set (objs st) [] (parks st)) as (HF&_&_).
    destruct (Forall2_lookup_l _ _ _ _ _ HF Hr) as (park'&Hr'&Hfr).
    exists park'. split; [done|]. by eapply geometry_ok_same_frame.
  - unfold run.
    eapply Forall_impl;
      [apply (fetch_inv_exported _ (source_of reply madison))|].
    + pose proof (fetch_inv_scrape_openstreetmap reply madison init
                    (fetch_inv_init _)) as Hosm.
      destruct madison; [|done]. by apply fetch_inv_scrape_madison_parks.
    + intros park (o&p0&Hok&Hf&Hfr). exists o, p0. split_and!; try done.
      eapply geometry_ok_same_frame; [done|]. by apply fetched_geometry.
Qed.

(** ** The geocoder *)

Section GeocoderProperties.

Variable float_of_str : string → option float.
Variable float_of_int : Z → option float.

Abbreviation py_float := (py_float float_of_str float_of_int).
Abbreviation geocode_try := (geocode_try float_of_str float_of_int).
Abbreviation geocode_location := (geocode_location float_of_str float_of_int).



End GeocoderProperties.

(** * Further properties of the script *)

(** ** The node index *)

Lemma index_nodes_snoc elements element :
  index_nodes (elements ++ [element]) =
  if bool_decide (e_type element = "node")
  then <[e_id element := element]> (index_nodes elements)
  else index_nodes elements.
Proof. unfold index_nodes. by rewrite foldl_snoc. Qed.

(** The index maps an id to the last node element of that id. *)
Lemma index_nodes_lookup_last elements id node :
  index_nodes elements !! id = Some node ↔
  ∃ pre post,
    elements = pre ++ node :: post ∧
    e_type node = "node" ∧ e_id node = id ∧
    Forall (λ e, ¬ (e_type e = "node" ∧ e_id e = id)) post.
Proof.
  induction elements as [|e elements IH] using rev_ind.
  { split; [done|]. intros (pre&post&Heq&_). by destruct pre. }
  rewrite index_nodes_snoc. split.
  - case_bool_decide as Htype.
    + rewrite lookup_insert. case_decide as Hid.
      * intros [= <-]. by exists elements, [].
      * intros (pre&post&->&?&?&Hpost)%IH.
        exists pre, (post ++ [e]). rewrite <- (assoc_L (++)). split_and!; try done.
        apply Forall_app. split; [done|]. constructor; [|done]. tauto.
    + intros (pre&post&->&?&?&Hpost)%IH.
      exists pre, (post ++ [e]). rewrite <- (assoc_L (++)). split_and!; try done.
      apply Forall_app. split; [done|]. constructor; [|done]. tauto.
  - intros (pre&post&Heq&Htype&Hid&Hpost).
    destruct post as [|x post _] using rev_ind.
    + apply (app_inj_2 _ _ [e] [node]) in Heq as [-> Hlast]; [|done].
      injection Hlast as ->.
      rewrite bool_decide_true by done. subst id. apply lookup_insert_eq.
    + rewrite app_comm_cons, (assoc_L (++)) in Heq.
      apply (app_inj_2 _ _ [e] [x]) in Heq as [-> Hlast]; [|done].
      injection Hlast as ->.
      apply Forall_app in Hpost as [Hpost Hx].
      apply Forall_cons in Hx as [Hx _].
      assert (index_nodes (pre ++ node :: post) !! id = Some node) as Hlast
        by (apply IH; by exists pre, post).
      case_bool_decide as Htx; [|done].
      rewrite lookup_insert_ne; [done|]. tauto.
Qed.

Lemma index_nodes_lookup_is_Some elements node :
  node ∈ elements → e_type node = "node" →
  is_Some (index_nodes elements !! e_id node).
Proof.
  intros Hin Htype.
  induction elements as [|e elements IH] using rev_ind;
    [by apply elem_of_nil in Hin|].
  rewrite index_nodes_snoc.
  apply elem_of_app in Hin as [Hin|Hin%list_elem_of_singleton].
  - case_bool_decide; [|by apply IH].
    rewrite lookup_insert. case_decide; [done|by apply IH].
  - subst e. rewrite bool_decide_true by done. by rewrite lookup_insert_eq.
Qed.

(** Among node elements with pairwise different ids, each is found
    under its id. *)
Lemma index_nodes_lookup_unique elements id node :
  (∀ e1 e2, e1 ∈ elements → e2 ∈ elements →
     e_type e1 = "node" → e_type e2 = "node" → e_id e1 = e_id e2 → e1 = e2) →
  index_nodes elements !! id = Some node ↔
  node ∈ elements ∧ e_type node = "node" ∧ e_id node = id.
Proof.
  intros Huniq. split.
  - intros (pre&post&->&?&?&_)%index_nodes_lookup_last. split; [|done].
    apply elem_of_app. right. by left.
  - intros (Hin&Htype&<-).
    destruct (index_nodes_lookup_is_Some _ _ Hin Htype) as [node' Hnode'].
    rewrite Hnode'. f_equal.
    apply index_nodes_lookup_last in Hnode' as (pre&post&->&?&?&_).
    apply Huniq; try done. apply elem_of_app. right. by left.
Qed.

(** X1: the node index that the first pass builds maps an id to the
    last node element of the reply with that id, wherever ways stand
    in the reply; an id is in the index exactly when some node element
    of the reply has it. *)
Theorem node_index_last_wins elements id :
  (∀ node,
     index_nodes elements !! id = Some node ↔
     ∃ pre post,
       elements = pre ++ node :: post ∧
       e_type node = "node" ∧ e_id node = id ∧
       Forall (λ e, ¬ (e_type e = "node" ∧ e_id e = id)) post) ∧
  (is_Some (index_nodes elements !! id) ↔
   ∃ node, node ∈ elements ∧ e_type node = "node" ∧ e_id node = id).
Proof.
  split; [intros node; apply index_nodes_lookup_last|]. split.
  - intros [node (pre&post&->&?&?&_)%index_nodes_lookup_last].
    exists node. split; [|done]. apply elem_of_app. right. by left.
  - intros (node&Hin&Htype&<-). by apply index_nodes_lookup_is_Some.
Qed.

(** X2: the node index does not depend on the order of the elements in
    the reply, as long as no two different node elements have the same
    id. *)
Theorem node_index_order_independent elements elements' :
  elements ≡ₚ elements' →
  (∀ e1 e2, e1 ∈ elements → e2 ∈ elements →
     e_type e1 = "node" → e_type e2 = "node" → e_id e1 = e_id e2 → e1 = e2) →
  index_nodes elements = index_nodes elements'.
Proof.
  intros Hperm Huniq.
  assert (∀ e1 e2, e1 ∈ elements' → e2 ∈ elements' →
     e_type e1 = "node" → e_type e2 = "node" → e_id e1 = e_id e2 → e1 = e2)
    as Huniq'.
  { intros e1 e2. rewrite <- Hperm. apply Huniq. }
  apply map_eq. intros id. apply option_eq. intros node.
  rewrite !index_nodes_lookup_unique by done. by rewrite Hperm.
Qed.

(** ** The second pass *)

Lemma resolve_coords_raises nodes_dict nodes node_id node :
  node_id ∈ nodes → nodes_dict !! node_id = Some node →
  e_lat node = None ∨ e_lon node = None →
  ∃ e, resolve_coords nodes_dict nodes = Raise e.
Proof.
  intros Hin Hnode Hmissing.
  induction nodes as [|n nodes IH]; [by apply elem_of_nil in Hin|].
  simpl. apply elem_of_cons in Hin as [<-|Hin].
  - rewrite Hnode.
    destruct Hmissing as [->| ->]; simpl; [by eexists|].
    destruct (e_lat node); simpl; by eexists.
  - destruct (IH Hin) as [e He]. rewrite He.
    destruct (nodes_dict !! n) as [m|]; [|by eexists].
    destruct (e_lat m); simpl; [|by eexists].
    destruct (e_lon m); simpl; by eexists.
Qed.

Lemma process_elements_abort nodes_dict st pre bad post :
  (∀ st', ∃ e, process_element nodes_dict st' bad = Raise e) →
  process_elements nodes_dict st (pre ++ bad :: post) =
  process_elements nodes_dict st pre.
Proof.
  intros Hbad. revert st. induction pre as [|x pre IH]; intros st; simpl.
  - by destruct (Hbad st) as [e ->].
  - by destruct (process_element nodes_dict st x).
Qed.

(** X3: an element without the coordinates its fetcher reads ends the
    second pass: a tagged node without [lat] or [lon], or a tagged way
    one of whose nodes is in the index without [lat] or [lon], raises
    [KeyError], and neither it nor any element after it adds a park;
    the parks of the elements before it stay. *)
Theorem malformed_element_ends_pass nodes_dict st pre bad post :
  is_Some (e_tags bad) →
  (e_type bad = "node" ∧ (e_lat bad = None ∨ e_lon bad = None)) ∨
  (e_type bad = "way" ∧
   ∃ node_id node,
     node_id ∈ default [] (e_nodes bad) ∧
     nodes_dict !! node_id = Some node ∧
     (e_lat node = None ∨ e_lon node = None)) →
  process_elements nodes_dict st (pre ++ bad :: post) =
  process_elements nodes_dict st pre.
Proof.
  intros Htags Hbad. apply process_elements_abort. intros st'.
  unfold process_element. rewrite (bool_decide_true (is_Some _)) by done.
  destruct Hbad as [[Htype Hmissing]|(Htype&node_id&node&Hin&Hnode&Hmissing)];
    rewrite Htype; simpl.
  - unfold _process_osm_node, node_park.
    destruct Hmissing as [->| ->]; simpl; [by eexists|].
    destruct (e_lat bad); simpl; by eexists.
  - unfold _process_osm_way, way_park.
    destruct (default [] (e_nodes bad)) as [|n ns] eqn:Hns;
      [by apply elem_of_nil in Hin|].
    simpl negb. cbv iota.
    destruct (resolve_coords_raises _ _ _ _ Hin Hnode Hmissing) as [e ->].
    by eexists.
Qed.

Lemma exported_appended (st : DogParkScraper) new :
  Forall (λ r, r < length (objs st)) (parks st) →
  exported (mkScraper (objs st ++ new)
              (parks st ++ seq (length (objs st)) (length new))) =
  exported st ++ new.
Proof.
  intros Hvalid. unfold exported. simpl. rewrite map_app. f_equal.
  - apply map_ext_Forall. eapply Forall_impl; [exact Hvalid|].
    intros r Hr. simpl. by rewrite lookup_total_app_l.
  - generalize (objs st). clear. intros l. revert l.
    induction new as [|x new IH]; intros l; simpl; [done|].
    rewrite list_lookup_total_middle by done. f_equal.
    specialize (IH (l ++ [x])).
    rewrite length_app, Nat.add_1_r, <- (assoc_L (++)) in IH. apply IH.
Qed.

Lemma append_park_appended st new park :
  append_park (mkScraper (objs st ++ new)
                 (parks st ++ seq (length (objs st)) (length new))) park =
  mkScraper (objs st ++ (new ++ [park]))
    (parks st ++ seq (length (objs st)) (length (new ++ [park]))).
Proof.
  unfold append_park. simpl.
  by rewrite !length_app, Nat.add_1_r, seq_S, !(assoc_L (++)).
Qed.

Lemma foldl_append_park st new :
  foldl append_park st new =
  mkScraper (objs st ++ new) (parks st ++ seq (length (objs st)) (length new)).
Proof.
  induction new as [|park new IH] using rev_ind.
  - simpl. rewrite !app_nil_r. by destruct st.
  - by rewrite foldl_snoc, IH, append_park_appended.
Qed.

(** What the body of the second loop does with one element. *)
Lemma process_element_cases nodes_dict st element :
  (∃ e, process_element nodes_dict st element = Raise e) ∨
  process_element nodes_dict st element = Ok st ∨
  ∃ park,
    is_feature element = true ∧ source park = "OpenStreetMap" ∧
    process_element nodes_dict st element = Ok (append_park st park).
Proof.
  unfold process_element, is_feature.
  destruct (bool_decide (is_Some (e_tags element)));
    [|rewrite !andb_false_r; by right; left].
  rewrite !andb_true_r.
  destruct (bool_decide (e_type element = "node")); simpl.
  - unfold _process_osm_node, node_park.
    destruct (e_lat element); simpl; [|left; by eexists].
    destruct (e_lon element); simpl; [|left; by eexists].
    right; right. eexists. split; [done|]. by split; [|reflexivity].
  - destruct (bool_decide (e_type element = "way")); [|by right; left].
    unfold _process_osm_way, way_park.
    destruct (default [] (e_nodes element)) as [|n ns]; [by right; left|].
    simpl negb. cbv iota.
    destruct (resolve_coords nodes_dict (n :: ns)) as [[|c ring]|];
      simpl; [by right; left| |left; by eexists].
    right; right. eexists. split; [done|]. by split; [|reflexivity].
Qed.

Lemma process_elements_appends nodes_dict st elements :
  ∃ new,
    process_elements nodes_dict st elements =
      mkScraper (objs st ++ new)
        (parks st ++ seq (length (objs st)) (length new)) ∧
    Forall (λ park, source park = "OpenStreetMap") new ∧
    length new ≤ length (filter is_feature elements).
Proof.
  revert st. induction elements as [|element elements IH]; intros st; simpl.
  { exists []. simpl. rewrite !app_nil_r. by destruct st. }
  assert (∃ new,
    st = mkScraper (objs st ++ new)
           (parks st ++ seq (length (objs st)) (length new)) ∧
    Forall (λ park, source park = "OpenStreetMap") new ∧
    length new ≤ length (filter is_feature (element :: elements))) as Hstay.
  { exists []. simpl. rewrite !app_nil_r. split_and!; [by destruct st|done|lia]. }
  destruct (process_element_cases nodes_dict st element)
    as [[e ->]|[->|(park&Hfeat&Hsrc&->)]]; [done| |].
  - destruct (IH st) as (new&Heq&Hsrc&Hlen). exists new. split_and!; try done.
    etrans; [exact Hlen|]. rewrite filter_cons. case_decide; simpl; lia.
  - destruct (IH (append_park st park)) as (new&Heq&Hsrc'&Hlen).
    exists (park :: new). rewrite Heq. unfold append_park. simpl. split_and!.
    + by rewrite length_app, Nat.add_1_r, <- !(assoc_L (++)).
    + by constructor.
    + rewrite filter_cons_True by by rewrite Hfeat. simpl. lia.
Qed.

(** X4: [scrape_openstreetmap] only appends: the objects of the store
    and the references of [self.parks] stay as they are, every new
    reference is to a new object, every new park has the source
    OpenStreetMap, and there is at most one new park for each tagged
    node or way of the reply, none when the request fails; the records
    exported before are a prefix of the records exported after. *)
Theorem scrape_openstreetmap_appends reply st :
  ∃ new,
    scrape_openstreetmap reply st =
      mkScraper (objs st ++ new)
        (parks st ++ seq (length (objs st)) (length new)) ∧
    Forall (λ park, source park = "OpenStreetMap") new ∧
    length new ≤
      match reply with
      | Ok elements => length (filter is_feature elements)
      | Raise _ => 0
      end ∧
    (Forall (λ r, r < length (objs st)) (parks st) →
     exported (scrape_openstreetmap reply st) = exported st ++ new).
Proof.
  assert (∃ new,
    scrape_openstreetmap reply st =
      mkScraper (objs st ++ new)
        (parks st ++ seq (length (objs st)) (length new)) ∧
    Forall (λ park, source park = "OpenStreetMap") new ∧
    length new ≤
      match reply with
      | Ok elements => length (filter is_feature elements)
      | Raise _ => 0
      end) as (new&Heq&Hsrc&Hlen).
  { destruct reply as [elements|e]; simpl.
    - apply process_elements_appends.
    - exists []. simpl. rewrite !app_nil_r. by destruct st. }
  exists new. split_and!; try done.
  intros Hvalid. rewrite Heq. by apply exported_appended.
Qed.

(** X5: [_scrape_madison_parks] appends the five parks of the static
    list, in their order, as new objects, whatever is in the scraper;
    the records exported before stay and the five follow them. *)
Theorem scrape_madison_parks_appends st :
  _scrape_madison_parks st =
    mkScraper (objs st ++ madison_parks)
      (parks st ++ seq (length (objs st)) 5) ∧
  (Forall (λ r, r < length (objs st)) (parks st) →
   exported (_scrape_madison_parks st) = exported st ++ madison_parks).
Proof.
  unfold _scrape_madison_parks. rewrite foldl_append_park. split; [done|].
  apply exported_appended.
Qed.

(** ** Ways with unknown nodes *)

Lemma resolve_coords_omap nodes_dict nodes :
  (∀ node_id node, node_id ∈ nodes → nodes_dict !! node_id = Some node →
     is_Some (e_lat node) ∧ is_Some (e_lon node)) →
  resolve_coords nodes_dict nodes =
  Ok (omap (node_coordinate nodes_dict) nodes).
Proof.
  induction nodes as [|n nodes IH]; intros Hcoord; [done|].
  cbn [resolve_coords omap list_omap].
  rewrite IH by (intros ? ? ?; apply Hcoord; by right).
  destruct (nodes_dict !! n) as [node|] eqn:Hn.
  - destruct (Hcoord n node) as [[la Hla] [lo Hlo]]; [by left|done|].
    assert (node_coordinate nodes_dict n = Some (la, lo)) as ->.
    { unfold node_coordinate. rewrite Hn. simpl. rewrite Hla. simpl.
      by rewrite Hlo. }
    by rewrite Hla, Hlo.
  - assert (node_coordinate nodes_dict n = None) as ->; [|done].
    unfold node_coordinate. by rewrite Hn.
Qed.

(** X6: the node IDs of a way that the node index does not have are
    left out without a word: the ring is made of the coordinates of the
    IDs that the index has, in the order of the node list; when that
    ring is empty the way is skipped, and otherwise one new park is put
    at the end of [self.parks], with that ring as area_bounds and its
    mean, as the interpreter adds and divides floats, as centroid. *)
Theorem way_over_known_nodes st way nodes_dict :
  (∀ node_id node,
     node_id ∈ default [] (e_nodes way) →
     nodes_dict !! node_id = Some node →
     is_Some (e_lat node) ∧ is_Some (e_lon node)) →
  let ring := omap (node_coordinate nodes_dict) (default [] (e_nodes way)) in
  (ring = [] → _process_osm_way st way nodes_dict = Ok st) ∧
  (ring ≠ [] →
   ∃ park st',
     _process_osm_way st way nodes_dict = Ok st' ∧
     objs st' = objs st ++ [park] ∧
     parks st' = parks st ++ [length (objs st)] ∧
     area_bounds park = Some ring ∧
     lat park = arithmetic_mean ring.*1 ∧
     lng park = arithmetic_mean ring.*2).
Proof.
  intros Hcoord ring. subst ring.
  pose proof (resolve_coords_omap _ _ Hcoord) as Hres.
  unfold _process_osm_way, way_park.
  destruct (default [] (e_nodes way)) as [|n ns]; [by split|].
  simpl negb. cbv iota. rewrite Hres.
  destruct (omap (node_coordinate nodes_dict) (n :: ns)) as [|c ring];
    simpl bind; [by split|].
  simpl truthy_list. simpl negb. cbv iota.
  split; [done|]. intros _. eexists _, _. split; [reflexivity|].
  unfold append_park. cbn [objs parks lat lng area_bounds].
  split_and!; try done.
  all: cbn [lat lng]; by rewrite py_sum_mean by solve_length.
Qed.

(** ** Descriptions of the Overpass records *)

Lemma append_empty (s1 s2 : string) : s1 +:+ s2 = "" → s1 = "" ∧ s2 = "".
Proof. by destruct s1. Qed.

Lemma osm_description_empty tags (placeholder : string) :
  placeholder ≠ "" →
  (if truthy_list (description_parts tags)
   then join " | " (description_parts tags) else placeholder) = "" ↔
  tags !! "description" = Some "" ∧ tags !! "surface" = None.
Proof.
  intros Hph. unfold description_parts.
  destruct (tags !! "description") as [d|], (tags !! "surface") as [s|];
    simpl; split; try done; try (by intros [? ?]).
  - by intros [_ [=]]%append_empty.
  - by intros ->.
  - by intros [[= ->] _].
Qed.

(** X7: the description of a park made of a node or of a way is empty
    only in one case, a [description] tag that is the empty string with
    no [surface] tag; with neither tag it is the placeholder, which is
    not empty, so that a later duplicate cannot fill it in. *)
Theorem osm_description_empty_iff e nodes_dict park :
  node_park e = Ok park ∨ way_park e nodes_dict = Ok (Some park) →
  let tags := default ∅ (e_tags e) in
  (description park = "" ↔
   tags !! "description" = Some "" ∧ tags !! "surface" = None) ∧
  (∀ list_of_set other,
     ¬ (tags !! "description" = Some "" ∧ tags !! "surface" = None) →
     description (merge_into list_of_set other park) = description park).
Proof.
  intros Hpark. simpl.
  assert (description park = "" ↔
          default ∅ (e_tags e) !! "description" = Some "" ∧
          default ∅ (e_tags e) !! "surface" = None) as Hempty.
  { destruct Hpark as [Hn|Hw].
    - revert Hn. unfold node_park.
      destruct (e_lat e), (e_lon e); simpl; [|done..].
      intros [= <-]. simpl. by apply osm_description_empty.
    - revert Hw. unfold way_park.
      destruct (default [] (e_nodes e)) as [|n ns]; [done|].
      simpl negb. cbv iota.
      destruct (resolve_coords nodes_dict (n :: ns)) as [[|c ring]|];
        [done| |done].
      simpl. intros [= <-]. simpl. by apply osm_description_empty. }
  split; [done|]. intros list_of_set other Hnot.
  rewrite <- Hempty in Hnot. unfold merge_into.
  destruct (truthy_str (description park)) eqn:Htruthy.
  - rewrite andb_false_r. by destruct (truthy_list (amenities other)).
  - by destruct (description park).
Qed.

(** ** What deduplication does to descriptions and amenities *)

Section MergeProperties.

Variable list_of_set : list string → list string.

Abbreviation merge_into := (merge_into list_of_set).
Abbreviation scan_unique := (scan_unique list_of_set).
Abbreviation dedup_step := (dedup_step list_of_set).
Abbreviation dedup_loop := (dedup_loop list_of_set).
Abbreviation remove_duplicates := (remove_duplicates list_of_set).

Lemma merge_into_description park unique_park :
  (description unique_park ≠ "" →
   description (merge_into park unique_park) = description unique_park) ∧
  (description (merge_into park unique_park) = description unique_park ∨
   description (merge_into park unique_park) = description park).
Proof.
  unfold merge_into.
  destruct (truthy_str (description park)) eqn:Hp,
           (truthy_str (description unique_park)) eqn:Hu,
           (truthy_list (amenities park)); simpl; split; auto;
    intros Hne; by destruct (description unique_park).
Qed.

Lemma merge_into_amenities park unique_park a :
  list_of_set_spec list_of_set →
  a ∈ amenities (merge_into park unique_park) ↔
  a ∈ amenities unique_park ∨ a ∈ amenities park.
Proof.
  intros Hset. unfold merge_into.
  destruct (amenities park) as [|y ys] eqn:Hap; simpl.
  - destruct (truthy_str (description park) && _); simpl;
      rewrite elem_of_nil; tauto.
  - rewrite (proj2 (Hset _)), elem_of_app.
    by destruct (truthy_str (description park) && _).
Qed.

(** After one iteration an object is as before, or it is the first
    close record with [park] merged into it. *)
Lemma dedup_step_object h unique_parks park (x : loc) :
  let r := dedup_step (h, unique_parks) park in
  r.1 !!! x = h !!! x ∨
  (x ∈ unique_parks ∧ x < length h ∧
   is_close (h !!! park) (h !!! x) = true ∧
   r.1 !!! x = merge_into (h !!! park) (h !!! x)).
Proof.
  unfold dedup_step. simpl.
  destruct (scan_unique h park unique_parks) as [h'|] eqn:Hscan; simpl;
    [|by left].
  apply scan_unique_Some in Hscan as (pre&u&post&->&_&Hc&->).
  rewrite list_lookup_total_insert. case_decide as Hx; [|by left].
  destruct Hx as [<- Hlt]. right. split_and!; try done.
  apply elem_of_app. right. by left.
Qed.

Lemma dedup_loop_cons h unique_parks park todo :
  dedup_loop h unique_parks (park :: todo) =
  dedup_loop (dedup_step (h, unique_parks) park).1
             (dedup_step (h, unique_parks) park).2 todo.
Proof. unfold dedup_loop. simpl. by destruct (dedup_step _ _). Qed.

Lemma dedup_loop_description h unique_parks todo (x : loc) :
  let r := dedup_loop h unique_parks todo in
  (description (h !!! x) ≠ "" →
   description (r.1 !!! x) = description (h !!! x)) ∧
  (description (r.1 !!! x) = description (h !!! x) ∨
   ∃ park, park ∈ todo ∧ description (r.1 !!! x) = description (h !!! park)).
Proof.
  revert h unique_parks x.
  induction todo as [|park todo IH]; intros h us x; simpl; [by auto|].
  rewrite dedup_loop_cons.
  set (s := dedup_step (h, us) park).
  assert (∀ y, (description (h !!! y) ≠ "" →
                description (s.1 !!! y) = description (h !!! y)) ∧
               (description (s.1 !!! y) = description (h !!! y) ∨
                description (s.1 !!! y) = description (h !!! park))) as Hstep.
  { intros y. unfold s.
    destruct (dedup_step_object h us park y) as [->|(_&_&_&->)];
      [by auto|]. apply merge_into_description. }
  destruct (IH s.1 s.2 x) as [Hkeep Hfrom]. split.
  - intros Hne. rewrite Hkeep; destruct (Hstep x) as [Hx _]; rewrite Hx; done.
  - destruct Hfrom as [->|(p&Hp&->)].
    + destruct (Hstep x) as [_ [->| ->]]; [by left|].
      right. exists park. split; [by left|done].
    + right. destruct (Hstep p) as [_ [->| ->]].
      * exists p. split; [by right|done].
      * exists park. split; [by left|done].
Qed.

Lemma dedup_loop_amenities h unique_parks todo (x : loc) a :
  list_of_set_spec list_of_set →
  let r := dedup_loop h unique_parks todo in
  (a ∈ amenities (h !!! x) → a ∈ amenities (r.1 !!! x)) ∧
  (a ∈ amenities (r.1 !!! x) →
   a ∈ amenities (h !!! x) ∨
   ∃ park, park ∈ todo ∧ a ∈ amenities (h !!! park)).
Proof.
  intros Hset. revert h unique_parks x.
  induction todo as [|park todo IH]; intros h us x; simpl; [by auto|].
  rewrite dedup_loop_cons.
  set (s := dedup_step (h, us) park).
  assert (∀ y, (a ∈ amenities (h !!! y) → a ∈ amenities (s.1 !!! y)) ∧
               (a ∈ amenities (s.1 !!! y) →
                a ∈ amenities (h !!! y) ∨ a ∈ amenities (h !!! park)))
    as Hstep.
  { intros y. unfold s.
    destruct (dedup_step_object h us park y) as [->|(_&_&_&->)];
      [by auto|]. rewrite merge_into_amenities by done. tauto. }
  destruct (IH s.1 s.2 x) as [Hup Hdown]. split.
  - intros Ha. by apply Hup, Hstep.
  - intros [Ha|(p&Hp&Ha)]%Hdown.
    + apply Hstep in Ha as [Ha|Ha]; [by left|].
      right. exists park. split; [by left|done].
    + right. apply Hstep in Ha as [Ha|Ha].
      * exists p. split; [by right|done].
      * exists park. split; [by left|done].
Qed.

(** X8: over a whole run of [remove_duplicates] a description that is
    not empty is never replaced, and a description that changes becomes
    the description that some record of the input had: descriptions are
    filled in, never overwritten and never made up. *)
Theorem remove_duplicates_description st (r : loc) :
  let st' := remove_duplicates st in
  (description (objs st !!! r) ≠ "" →
   description (objs st' !!! r) = description (objs st !!! r)) ∧
  (description (objs st' !!! r) = description (objs st !!! r) ∨
   ∃ park, park ∈ parks st ∧
     description (objs st' !!! r) = description (objs st !!! park)).
Proof. apply dedup_loop_description. Qed.

(** X9: over a whole run of [remove_duplicates] no object loses an
    amenity, and every amenity that an object has afterwards was an
    amenity of that object or of a record of the input. *)
Theorem remove_duplicates_amenities st (r : loc) a :
  list_of_set_spec list_of_set →
  let st' := remove_duplicates st in
  (a ∈ amenities (objs st !!! r) → a ∈ amenities (objs st' !!! r)) ∧
  (a ∈ amenities (objs st' !!! r) →
   a ∈ amenities (objs st !!! r) ∨
   ∃ park, park ∈ parks st ∧ a ∈ amenities (objs st !!! park)).
Proof. intros Hset. by apply dedup_loop_amenities. Qed.

Lemma dedup_loop_keeps_amenities h unique_parks todo park a :
  list_of_set_spec list_of_set →
  Forall (λ r, r < length h) unique_parks →
  Forall (λ r, r < length h) todo →
  park ∈ todo → a ∈ amenities (h !!! park) →
  let r := dedup_loop h unique_parks todo in
  ∃ u, u ∈ r.2 ∧ a ∈ amenities (r.1 !!! u) ∧
    (u = park ∨ is_close (r.1 !!! park) (r.1 !!! u) = true).
Proof.
  intros Hset Hus. revert park.
  induction todo as [|p todo IH] using rev_ind; intros park Htodo Hin Ha.
  { by apply elem_of_nil in Hin. }
  apply Forall_app in Htodo as [Htodo _].
  simpl. rewrite dedup_loop_snoc.
  destruct (dedup_loop_inv list_of_set h unique_parks todo)
    as (HF&(kept&Hkept&Hsub)&_).
  assert (∀ x, a ∈ amenities (h !!! x) →
               a ∈ amenities ((dedup_loop h unique_parks todo).1 !!! x))
    as Hgrow by (intros x; by apply dedup_loop_amenities).
  assert (∀ q, q ∈ todo → a ∈ amenities (h !!! q) →
    ∃ u, u ∈ (dedup_loop h unique_parks todo).2 ∧
      a ∈ amenities ((dedup_loop h unique_parks todo).1 !!! u) ∧
      (u = q ∨ is_close ((dedup_loop h unique_parks todo).1 !!! q)
                        ((dedup_loop h unique_parks todo).1 !!! u) = true))
    as IH' by (intros q; by apply IH).
  clear IH.
  destruct (dedup_loop h unique_parks todo) as [h1 us1]. simpl in *.
  assert (Forall (λ r, r < length h1) us1) as Hvalid.
  { rewrite <- (Forall2_length _ _ _ HF), Hkept. apply Forall_app.
    split; [done|]. apply Forall_forall. intros x Hx.
    apply (proj1 (Forall_forall _ _) Htodo). by eapply elem_of_sublist. }
  apply elem_of_app in Hin as [Hin|Hin%list_elem_of_singleton].
  - destruct (IH' park Hin Ha) as (u&Hu&Hau&Hclose).
    pose proof (dedup_step_inv list_of_set h1 us1 p)
      as (HF1&(kept1&Hkept1&_)&_).
    exists u. split_and!.
    + rewrite Hkept1. apply elem_of_app. by left.
    + destruct (dedup_step_object h1 us1 p u) as [->|(_&_&_&->)]; [done|].
      apply merge_into_amenities; [done|by left].
    + destruct Hclose as [->|Hc]; [by left|right].
      rewrite <- Hc. symmetry.
      apply is_close_same_frame; by apply Forall2_lookup_total_frame.
  - subst p. apply Hgrow in Ha. unfold dedup_step. simpl.
    destruct (scan_unique h1 park us1) as [h2|] eqn:Hscan; simpl.
    + pose proof (scan_unique_frame _ _ _ _ _ Hscan) as HF2.
      apply scan_unique_Some in Hscan as (pre&u&post&Hus1&_&Hc&->).
      assert (u ∈ us1) as Hu
        by (rewrite Hus1; apply elem_of_app; right; by left).
      assert (u < length h1) as Hlt
        by by apply (proj1 (Forall_forall _ _) Hvalid).
      exists u. split_and!; [done| |right].
      * rewrite list_lookup_total_insert_eq by done.
        apply merge_into_amenities; [done|by right].
      * rewrite <- Hc. symmetry.
        apply is_close_same_frame; by apply Forall2_lookup_total_frame.
    + exists park. split_and!; [apply elem_of_app; right; by left|done|by left].
Qed.

(** X10: no amenity is lost in deduplication: when the references of
    [self.parks] are references to objects, every amenity of every
    record of the input is afterwards an amenity of a kept record,
    which is that record or a record close to it. *)
Theorem remove_duplicates_keeps_amenities st park a :
  list_of_set_spec list_of_set →
  Forall (λ r, r < length (objs st)) (parks st) →
  park ∈ parks st → a ∈ amenities (objs st !!! park) →
  let st' := remove_duplicates st in
  ∃ u, u ∈ parks st' ∧ a ∈ amenities (objs st' !!! u) ∧
    (u = park ∨ is_close (objs st' !!! park) (objs st' !!! u) = true).
Proof.
  intros Hset Hvalid Hin Ha.
  by apply (dedup_loop_keeps_amenities (objs st) [] (parks st)).
Qed.

(** X11: [remove_duplicates] never adds a record, and never drops the
    first: the output is no longer than the input, and a non-empty
    input gives an output that starts with the same record. *)
Theorem remove_duplicates_length_head st :
  length (parks (remove_duplicates st)) ≤ length (parks st) ∧
  ∀ park rest, parks st = park :: rest →
    ∃ rest', parks (remove_duplicates st) = park :: rest' ∧
      rest' `sublist_of` rest.
Proof.
  split.
  - destruct (dedup_loop_inv list_of_set (objs st) [] (parks st))
      as (_&(kept&Hkept&Hsub)&_).
    unfold remove_duplicates. simpl. rewrite Hkept. by apply sublist_length.
  - intros park rest Hparks. unfold remove_duplicates. simpl.
    rewrite Hparks, dedup_loop_cons.
    unfold dedup_step at 1 2. simpl.
    destruct (dedup_loop_inv list_of_set (objs st) [park] rest)
      as (_&(kept&Hkept&Hsub)&_).
    exists kept. by rewrite Hkept.
Qed.

(** X12: [remove_duplicates] leaves the scraper exactly as it is when
    no record of [self.parks] is close to one before it, and only
    then does it keep every record. *)
Theorem remove_duplicates_fixed_point st :
  (separated (objs st) (parks st) → remove_duplicates st = st) ∧
  (parks (remove_duplicates st) = parks st →
   separated (objs st) (parks st)).
Proof.
  split.
  - intros Hsep. unfold remove_duplicates.
    rewrite (dedup_loop_separated list_of_set (objs st) [] (parks st)) by done.
    by destruct st.
  - intros Hparks.
    destruct (dedup_loop_inv list_of_set (objs st) [] (parks st))
      as (HF&_&Hsep).
    specialize (Hsep (separated_nil _)).
    unfold remove_duplicates in Hparks. simpl in Hparks. rewrite Hparks in Hsep.
    eapply separated_frame; [|exact Hsep]. by symmetry.
Qed.

End MergeProperties.

(** ** What a geocoding result other than the default tells *)

Section GeocoderFurther.

Variable float_of_str : string → option float.
Variable float_of_int : Z → option float.

Abbreviation py_float := (py_float float_of_str float_of_int).
Abbreviation geocode_try := (geocode_try float_of_str float_of_int).
Abbreviation geocode_location := (geocode_location float_of_str float_of_int).

Lemma subscript_Ok first key v :
  subscript first key = Ok v →
  ∃ items, first = JDict items ∧ dict_get items key = Some v.
Proof.
  destruct first as [| | | | |?|items]; simpl; try done.
  destruct (dict_get items key) as [v'|] eqn:Hget; simpl; [|done].
  intros [= <-]. by exists items.
Qed.

Lemma subscript_0_dict data items :
  subscript_0 data = Ok (JDict items) →
  ∃ rest, data = JList (JDict items :: rest).
Proof.
  destruct data as [| | | |s|l|?]; simpl; try done.
  - by destruct s.
  - destruct l as [|first rest]; [done|]. intros [= ->]. by exists rest.
Qed.

(** X13: a result of [geocode_location] other than the default pair
    comes from a reply with a success status whose body is a JSON list
    that starts with an object, and it is what [float] makes of the
    [lat] and [lon] entries of that object. *)
Theorem geocode_location_first_match reply coordinates :
  geocode_location reply = Ok coordinates →
  coordinates ≠ default_coordinates →
  ∃ r items rest la_v lo_v,
    reply = Ok r ∧ status_ok r = true ∧
    decoded r = Some (JList (JDict items :: rest)) ∧
    dict_get items "lat" = Some la_v ∧ py_float la_v = Ok coordinates.1 ∧
    dict_get items "lon" = Some lo_v ∧ py_float lo_v = Ok coordinates.2.
Proof.
  unfold geocode_location, geocode_try.
  destruct reply as [r|e]; simpl; [|by intros [= <-]].
  destruct (status_ok r) eqn:Hst; simpl; [|by intros [= <-]].
  destruct (decoded r) as [data|] eqn:Hdata; simpl; [|by intros [= <-]].
  destruct (truthy data); [|by intros [= <-]].
  destruct (subscript_0 data) as [first|] eqn:H0; simpl; [|by intros [= <-]].
  destruct (subscript first "lat") as [la_v|] eqn:Hla; simpl;
    [|by intros [= <-]].
  destruct (py_float la_v) as [la|] eqn:Hfla; simpl; [|by intros [= <-]].
  destruct (subscript first "lon") as [lo_v|] eqn:Hlo; simpl;
    [|by intros [= <-]].
  destruct (py_float lo_v) as [lo|] eqn:Hflo; simpl; [|by intros [= <-]].
  intros [= <-] _.
  apply subscript_Ok in Hla as (items&->&Hla).
  apply subscript_Ok in Hlo as (items'&[= <-]&Hlo).
  apply subscript_0_dict in H0 as (rest&->).
  by exists r, items, rest, la_v, lo_v.
Qed.

End GeocoderFurther.

(** ** The summary by source *)

Lemma summary_by_source_snoc parks park :
  summary_by_source (parks ++ [park]) =
  <[source park := default 0 (summary_by_source parks !! source park) + 1]>
    (summary_by_source parks).
Proof. unfold summary_by_source. by rewrite foldl_snoc. Qed.

(** X14: the summary that [main] prints counts every park once: the
    entry of a source is the number of parks that carry it, and a
    source that no park carries has no entry. *)
Theorem summary_by_source_counts parks s :
  summary_by_source parks !! s =
  (let n := length (filter (λ park, source park = s) parks) in
   if decide (n = 0) then None else Some n).
Proof.
  induction parks as [|park parks IH] using rev_ind; [done|].
  rewrite summary_by_source_snoc, filter_app, length_app, lookup_insert.
  rewrite filter_cons, filter_nil.
  destruct (decide (source park = s)) as [<-|Hne]; simpl.
  - rewrite IH. simpl.
    repeat case_decide; simpl; first [lia | f_equal; lia].
  - by rewrite IH, Nat.add_0_r.
Qed.

(** ** The run as a whole *)

Lemma scrape_openstreetmap_valid reply :
  ∃ new,
    scrape_openstreetmap reply init = mkScraper new (seq 0 (length new)) ∧
    length new ≤
      match reply with
      | Ok elements => length (filter is_feature elements)
      | Raise _ => 0
      end.
Proof.
  destruct reply as [elements|e]; simpl; [|by exists []].
  destruct (process_elements_appends (index_nodes elements) init elements)
    as (new&Heq&_&Hlen).
  by exists new.
Qed.

(** X15: [run] exports at most one record for each tagged node or way
    of the Overpass reply, and five more when the location is Madison;
    when the Overpass request fails only these five can be there. *)
Theorem run_exports_at_most list_of_set reply madison :
  length (exported (run list_of_set reply madison)) ≤
  match reply with
  | Ok elements => length (filter is_feature elements)
  | Raise _ => 0
  end + (if madison then 5 else 0).
Proof.
  unfold run, exported. rewrite length_map.
  destruct (scrape_openstreetmap_valid reply) as (new&->&Hlen).
  set (st := if madison then _ else _).
  destruct (dedup_loop_inv list_of_set (objs st) [] (parks st))
    as (_&(kept&Hkept&Hsub)&_).
  unfold remove_duplicates. simpl. rewrite Hkept. simpl.
  apply sublist_length in Hsub. etrans; [exact Hsub|].
  subst st. destruct madison.
  - unfold _scrape_madison_parks. rewrite foldl_append_park. simpl.
    rewrite length_app, !length_seq. simpl. lia.
  - simpl. rewrite length_seq. lia.
Qed.

(** * The distance test as a relation *)

Lemma SFcompare_finite_refl s m e :
  SpecFloat.SFcompare (SpecFloat.S754_finite s m e)
                      (SpecFloat.S754_finite s m e) = Some Eq.
Proof.
  simpl. by destruct s; rewrite Z.compare_refl, Pos.compare_refl.
Qed.

(** [is_finite]: neither NaN nor an infinity. *)
Lemma is_finite_Prim2SF x :
  is_finite x =
  match FloatOps.Prim2SF x with
  | SpecFloat.S754_zero _ | SpecFloat.S754_finite _ _ _ => true
  | _ => false
  end.
Proof.
  unfold is_finite, is_nan, is_infinity.
  rewrite !FloatAxioms.eqb_spec, FloatAxioms.abs_spec.
  assert (FloatOps.Prim2SF infinity = SpecFloat.S754_infinity false) as ->
    by (vm_compute; reflexivity).
  destruct (FloatOps.Prim2SF x) as [s|s| |s m e]; try (destruct s); try reflexivity.
  all: unfold SpecFloat.SFeqb; by rewrite SFcompare_finite_refl.
Qed.

(** [abs(x - x) < 0.001] holds of the finite floats, and of no other. *)
Lemma abs_sub_self_threshold x :
  (abs (x - x) <? threshold)%float = is_finite x.
Proof.
  rewrite FloatAxioms.ltb_spec, FloatAxioms.abs_spec, FloatAxioms.sub_spec,
    is_finite_Prim2SF.
  assert (FloatOps.Prim2SF threshold =
          SpecFloat.S754_finite false 4611686018427388 (-62)) as ->
    by (vm_compute; reflexivity).
  destruct (FloatOps.Prim2SF x) as [s|s| |s m e]; try (destruct s); try reflexivity.
  all: unfold FloatAxioms.SF64sub, SpecFloat.SFsub; by rewrite Z.sub_diag.
Qed.

(** X16: the test for duplicates is symmetric; two records with the
    same coordinates pass it exactly when these coordinates are finite
    (a record with a NaN or infinite coordinate is not even close to
    itself); and it is not transitive. *)
Theorem is_close_relation :
  (∀ p q, is_close p q = is_close q p) ∧
  (∀ p q, lat p = lat q → lng p = lng q →
     is_close p q = is_finite (lat p) && is_finite (lng p)) ∧
  ¬ (∀ p q r, is_close p q = true → is_close q r = true →
       is_close p r = true).
Proof.
  split_and!.
  - apply is_close_sym.
  - intros p q Hlat Hlng. unfold is_close, lat_diff, lng_diff.
    by rewrite <- Hlat, <- Hlng, !abs_sub_self_threshold.
  - intros Htrans.
    assert (is_close park_east park_west = true) as Hclose
      by (apply (Htrans _ park_between); vm_compute; reflexivity).
    vm_compute in Hclose. discriminate.
Qed.

(** ** Ways and nodes in one reply *)

Lemma way_park_resolved way nodes_dict nodes ring :
  e_nodes way = Some nodes → nodes ≠ [] →
  Forall2 (resolves nodes_dict) nodes ring →
  ∃ park,
    way_park way nodes_dict = Ok (Some park) ∧
    area_bounds park = Some ring ∧
    lat park = arithmetic_mean ring.*1 ∧
    lng park = arithmetic_mean ring.*2.
Proof.
  intros Hnodes Hne Hres.
  pose proof (resolve_coords_resolved _ _ _ Hres) as Hcoords.
  unfold way_park. rewrite Hnodes. simpl.
  destruct nodes as [|n ns]; [done|]. simpl truthy_list. simpl negb.
  cbv iota. rewrite Hcoords. simpl bind.
  destruct ring as [|c ring]; [by apply Forall2_length in Hres|].
  simpl truthy_list. simpl negb. cbv iota.
  eexists. split; [reflexivity|]. simpl.
  by rewrite !py_sum_mean by solve_length.
Qed.

Lemma process_element_ok nodes_dict st element :
  (e_type element = "node" →
   is_Some (e_lat element) ∧ is_Some (e_lon element)) →
  (∀ node_id node, nodes_dict !! node_id = Some node →
     is_Some (e_lat node) ∧ is_Some (e_lon node)) →
  ∃ st', process_element nodes_dict st element = Ok st'.
Proof.
  intros Hnode Hindex. unfold process_element.
  destruct (bool_decide (e_type element = "node") && _) eqn:Hn.
  - apply andb_prop in Hn as [Ht%bool_decide_eq_true _].
    destruct (Hnode Ht) as [[la Hla] [lo Hlo]].
    unfold _process_osm_node, node_park. rewrite Hla, Hlo. by eexists.
  - destruct (bool_decide (e_type element = "way") && _); [|by eexists].
    unfold _process_osm_way, way_park.
    destruct (default [] (e_nodes element)) as [|n ns]; [by eexists|].
    simpl negb. cbv iota.
    rewrite resolve_coords_omap by (intros; by eapply Hindex).
    destruct (omap (node_coordinate nodes_dict) (n :: ns)); simpl;
      by eexists.
Qed.

Lemma process_elements_app_ok nodes_dict st elements1 elements2 :
  Forall (λ e, ∀ st, ∃ st', process_element nodes_dict st e = Ok st')
         elements1 →
  process_elements nodes_dict st (elements1 ++ elements2) =
  process_elements nodes_dict
    (process_elements nodes_dict st elements1) elements2.
Proof.
  intros Hok. revert st.
  induction Hok as [|e elements1 He _ IH]; intros st; simpl; [done|].
  destruct (He st) as [st' ->]. apply IH.
Qed.

(** X17: the two passes make the place of a way in the reply
    irrelevant.  When the node elements of the reply have coordinates
    and different ids, a tagged way of the reply whose node IDs are all
    ids of node elements of the reply, before or after the way, gets
    its park: after [scrape_openstreetmap] a new reference of
    [self.parks] leads to a park with the ring of their coordinates, in
    the order of the node list, and the centroid of that ring. *)
Theorem way_resolved_anywhere elements st way nodes ring :
  (∀ e1 e2, e1 ∈ elements → e2 ∈ elements →
     e_type e1 = "node" → e_type e2 = "node" → e_id e1 = e_id e2 → e1 = e2) →
  (∀ e, e ∈ elements → e_type e = "node" →
     is_Some (e_lat e) ∧ is_Some (e_lon e)) →
  way ∈ elements → e_type way = "way" → is_Some (e_tags way) →
  e_nodes way = Some nodes → nodes ≠ [] →
  Forall2 (λ node_id c, ∃ node,
             node ∈ elements ∧ e_type node = "node" ∧ e_id node = node_id ∧
             e_lat node = Some c.1 ∧ e_lon node = Some c.2) nodes ring →
  let st' := scrape_openstreetmap (Ok elements) st in
  ∃ (r : loc) park,
    length (objs st) ≤ r ∧ r ∈ parks st' ∧ objs st' !! r = Some park ∧
    area_bounds park = Some ring ∧
    lat park = arithmetic_mean ring.*1 ∧
    lng park = arithmetic_mean ring.*2.
Proof.
  intros Huniq Hcoords Hin Htype Htags Hnodes Hne Hring. simpl.
  assert (Forall2 (resolves (index_nodes elements)) nodes ring) as Hres.
  { eapply Forall2_impl; [exact Hring|].
    intros node_id c (node&Hn&Hnt&Hid&Hla&Hlo). exists node.
    split; [|done]. by apply index_nodes_lookup_unique. }
  assert (Forall (λ e, ∀ st, ∃ st',
            process_element (index_nodes elements) st e = Ok st') elements)
    as Hok.
  { apply Forall_forall. intros e He st0. apply process_element_ok.
    - intros ?. by apply Hcoords.
    - intros node_id node (pre&post&->&Hnt&_)%index_nodes_lookup_last.
      apply Hcoords; [|done]. apply elem_of_app. right. by left. }
  destruct (way_park_resolved way _ _ _ Hnodes Hne Hres)
    as (park&Hpark&Hab&Hlat&Hlng).
  revert Hok Hpark. generalize (index_nodes elements). intros nd Hok Hpark.
  apply list_elem_of_split in Hin as (pre&post&->).
  apply Forall_app in Hok as [Hpre _].
  rewrite process_elements_app_ok by done.
  destruct (process_elements_appends nd st pre) as (new1&Heq1&_&_).
  set (st1 := process_elements nd st pre) in *.
  assert (process_element nd st1 way = Ok (append_park st1 park)) as Hway.
  { unfold process_element.
    rewrite Htype, (bool_decide_true (is_Some _)) by done.
    simpl. unfold _process_osm_way. by rewrite Hpark. }
  simpl. rewrite Hway.
  destruct (process_elements_appends nd (append_park st1 park) post)
    as (new2&Heq2&_&_).
  rewrite Heq2. exists (length (objs st1)), park. simpl. split_and!; try done.
  - rewrite Heq1. simpl. rewrite length_app. lia.
  - apply elem_of_app. left. apply elem_of_app. right. by left.
  - rewrite <- (assoc_L (++)). by apply list_lookup_middle.
Qed.

(** ** A run without Overpass *)

(** X18: when the Overpass request fails, whatever the exception, the
    run goes on: it exports the five parks of the static list, as they
    are, when the location is Madison, and nothing otherwise. *)
Theorem run_without_overpass list_of_set e madison :
  exported (run list_of_set (Raise e) madison) =
  if madison then madison_parks else [].
Proof. destruct madison; vm_compute; reflexivity. Qed.

End Interpreter.

(** * Instances *)

Lemma first_occurrences_spec : list_of_set_spec first_occurrences.
Proof.
  intros xs. split; [apply NoDup_remove_dups|].
  intros x. apply elem_of_remove_dups.
Qed.

(** The five parks of the static list are far from each other:
    deduplication keeps them all and writes nothing. *)
Example madison_parks_kept :
  remove_duplicates first_occurrences (_scrape_madison_parks init) =
  _scrape_madison_parks init.
Proof. vm_compute. reflexivity. Qed.

(** The same object twice in [self.parks] is its own duplicate. *)
Example same_object_twice :
  parks (remove_duplicates first_occurrences (mkScraper [park_west] [0; 0])) =
  [0].
Proof. vm_compute. reflexivity. Qed.

(** The run of the scenario: the point [A] with its one amenity and no
    boundary, the area [B] with its centroid and its two-point ring. *)
Example end_to_end_scenario python :
  exported (run python first_occurrences (Ok scenario) false) =
  [ mkDogPark "A" 43.08%float (-89.44)%float "Dog park" "" ["Fenced"] None
              "OpenStreetMap";
    mkDogPark "B" 43.082%float (-89.44)%float "Dog park area" "" []
              (Some [(43.081%float, (-89.441)%float);
                     (43.083%float, (-89.439)%float)])
              "OpenStreetMap" ].
Proof. destruct python; vm_compute; reflexivity. Qed.


(** [park_between] merged into [park_west]: the empty description is
    filled in, the amenities are united. *)
Lemma merge_description_amenities_witness :
  ∃ merged,
    dedup_step first_occurrences
      ([park_west; park_east; park_between], [0; 1]) 2 =
      (<[0 := merged]> [park_west; park_east; park_between], [0; 1]) ∧
    <[0 := merged]> [park_west; park_east; park_between] !! 0 = Some merged ∧
    description merged =
      (if decide (description park_west = "" ∧ description park_between ≠ "")
       then description park_between else description park_west) ∧
    (∀ x, x ∈ amenities merged ↔
          x ∈ amenities park_west ∨ x ∈ amenities park_between) ∧
    (NoDup (amenities park_west) ∨ amenities park_between ≠ [] →
     NoDup (amenities merged)).
Proof.
  apply (merge_description_amenities first_occurrences
           [park_west; park_east; park_between] [] 0 [1] 2
           park_between park_west first_occurrences_spec).
  - reflexivity.
  - reflexivity.
  - constructor.
  - vm_compute. reflexivity.
Defined.

Lemma remove_duplicates_frame_witness :
  ∃ p',
    objs (remove_duplicates first_occurrences
            (mkScraper [park_west; park_east; park_between] [0; 1; 2])) !! 0
      = Some p' ∧
    name p' = name park_west ∧ lat p' = lat park_west ∧
    lng p' = lng park_west ∧ address p' = address park_west ∧
    area_bounds p' = area_bounds park_west ∧ source p' = source park_west.
Proof.
  destruct (remove_duplicates_frame first_occurrences
              (mkScraper [park_west; park_east; park_between] [0; 1; 2])
              park_between park_west) as (_&_&Hframe).
  apply (Hframe 0 park_west). reflexivity.
Defined.

Lemma remove_duplicates_separated_witness :
  ((lat_diff park_east (merge_into first_occurrences park_between park_west)
      <? threshold)%float &&
   (lng_diff park_east (merge_into first_occurrences park_between park_west)
      <? threshold)%float) = false ∧
  ∃ kept_after,
    kept_after `sublist_of` [] ∧
    ((far_from_all [park_west; park_east; park_between] 2 [0; 1] ∧
      parks (remove_duplicates first_occurrences
               (mkScraper [park_west; park_east; park_between] [0; 1; 2])) =
        [0; 1] ++ 2 :: kept_after) ∨
     ((∃ u, u ∈ [0; 1] ∧
         is_close ([park_west; park_east; park_between] !!! 2)
                  ([park_west; park_east; park_between] !!! u) = true) ∧
      parks (remove_duplicates first_occurrences
               (mkScraper [park_west; park_east; park_between] [0; 1; 2])) =
        [0; 1] ++ kept_after)).
Proof.
  destruct (remove_duplicates_separated first_occurrences
              (mkScraper [park_west; park_east; park_between] [0; 1; 2]))
    as (Hsep&_&_&Hfirst).
  split.
  - apply (Hsep 0 1); [lia| |]; vm_compute; reflexivity.
  - apply (Hfirst [0; 1] 2 []). reflexivity.
Defined.

(** The area [T] over three nodes: its park, and the centroid that
    each interpreter computes for it. *)
Lemma way_centroid_and_boundary_witness :
  (∃ park st',
     _process_osm_way From312 init element_T (index_nodes triangle) = Ok st' ∧
     objs st' = objs init ++ [park] ∧
     parks st' = parks init ++ [length (objs init)] ∧
     lat park = arithmetic_mean From312 [43.1; 43.2; 43.3]%float ∧
     lng park = arithmetic_mean From312 [-89.1; -89.2; -89.3]%float ∧
     area_bounds park = Some triangle_ring) ∧
  (∃ park st',
     _process_osm_way Before312 init element_T (index_nodes triangle) =
       Ok st' ∧
     objs st' = objs init ++ [park] ∧
     parks st' = parks init ++ [length (objs init)] ∧
     lat park = arithmetic_mean Before312 [43.1; 43.2; 43.3]%float ∧
     lng park = arithmetic_mean Before312 [-89.1; -89.2; -89.3]%float ∧
     area_bounds park = Some triangle_ring) ∧
  arithmetic_mean From312 [43.1; 43.2; 43.3]%float =
    43.199999999999996%float ∧
  arithmetic_mean Before312 [43.1; 43.2; 43.3]%float =
    43.20000000000001%float.
Proof.
  assert (Forall2 (resolves (index_nodes triangle)) [21; 22; 23]%Z
            triangle_ring) as Hres.
  { repeat constructor.
    - exists node_21. split_and!; vm_compute; reflexivity.
    - exists node_22. split_and!; vm_compute; reflexivity.
    - exists node_23. split_and!; vm_compute; reflexivity. }
  split_and!.
  - apply (way_centroid_and_boundary From312 init element_T
             (index_nodes triangle) [21; 22; 23]%Z triangle_ring);
      [reflexivity|discriminate|exact Hres].
  - apply (way_centroid_and_boundary Before312 init element_T
             (index_nodes triangle) [21; 22; 23]%Z triangle_ring);
      [reflexivity|discriminate|exact Hres].
  - vm_compute. reflexivity.
  - vm_compute. reflexivity.
Defined.

Lemma way_without_coordinates_skipped_witness :
  way_park From312 element_B ∅ = Ok None ∧
  _process_osm_way From312 init element_B ∅ = Ok init.
Proof.
  apply (way_without_coordinates_skipped From312 init element_B ∅).
  repeat constructor.
Defined.

(** The key [lit] is there, with the value [no], and the label
    [Lighting] is not: presence of the key does not decide. *)
Lemma amenity_presence_counterexample :
  (∃ park, node_park element_unlit = Ok park ∧
     is_Some (default ∅ (e_tags element_unlit) !! "lit") ∧
     "Lighting" ∉ amenities park) ∧
  ¬ (∀ (e : element) (park : DogPark),
       node_park e = Ok park →
       "Lighting" ∈ amenities park ↔ is_Some (default ∅ (e_tags e) !! "lit")).
Proof.
  assert (node_park element_unlit =
          Ok (mkDogPark "Unnamed Dog Park" 43.08%float (-89.44)%float
                "Dog park" "" [] None "OpenStreetMap")) as Hpark
    by (vm_compute; reflexivity).
  assert (is_Some (default ∅ (e_tags element_unlit) !! "lit")) as Hlit
    by (exists "no"; vm_compute; reflexivity).
  split.
  - eexists. split_and!; [exact Hpark|exact Hlit|]. simpl. apply not_elem_of_nil.
  - intros Hall. apply Hall in Hpark. simpl in Hpark.
    by eapply not_elem_of_nil, Hpark.
Qed.

Lemma osm_amenities_mapping_witness :
  "Fenced" ∈ ["Fenced"] ↔
    ("Fenced" = "Water fountain" ∧
     default ∅ (e_tags element_A) !! "drinking_water" = Some "yes") ∨
    ("Fenced" = "Lighting" ∧
     default ∅ (e_tags element_A) !! "lit" = Some "yes") ∨
    ("Fenced" = "Fenced" ∧
     default ∅ (e_tags element_A) !! "fence" = Some "yes") ∨
    ("Fenced" = "Restrooms" ∧
     default ∅ (e_tags element_A) !! "toilets" = Some "yes").
Proof.
  apply (osm_amenities_mapping From312 element_A ∅
           (mkDogPark "A" 43.08%float (-89.44)%float "Dog park" "" ["Fenced"]
              None "OpenStreetMap") "Fenced").
  left. vm_compute. reflexivity.
Defined.


Lemma exported_geometry_invariant_witness :
  geometry_ok From312 (FromWay element_B (index_nodes scenario))
    (mkDogPark "B" 43.082%float (-89.44)%float "Dog park area" "" []
       (Some [(43.081%float, (-89.441)%float);
              (43.083%float, (-89.439)%float)])
       "OpenStreetMap") ∧
  Forall (λ park, ∃ o p0,
            source_of (Ok scenario) true o ∧ fetched From312 o p0 ∧
            same_frame p0 park ∧ geometry_ok From312 o park)
         (exported (run From312 first_occurrences (Ok scenario) true)).
Proof.
  destruct (exported_geometry_invariant From312 first_occurrences
              (Ok scenario) true) as (Hfetch&_&Hrun).
  split; [|exact Hrun].
  apply Hfetch. vm_compute. reflexivity.
Defined.

(** * Further instances *)

Lemma node_index_last_wins_witness :
  index_nodes scenario !! 10%Z = Some node_10 ∧
  is_Some (index_nodes scenario !! 11%Z).
Proof.
  destruct (node_index_last_wins scenario 10%Z) as [Hlast _].
  destruct (node_index_last_wins scenario 11%Z) as [_ Hsome].
  split.
  - apply Hlast. exists [element_A; element_B], [node_11].
    split_and!; [done..|]. repeat constructor. by intros [_ [=]].
  - apply Hsome. exists node_11. split_and!; [|done..].
    apply list_elem_of_In. simpl. tauto.
Defined.

Lemma node_index_order_independent_witness :
  index_nodes scenario =
  index_nodes [node_10; node_11; element_A; element_B].
Proof.
  apply node_index_order_independent.
  - apply (Permutation_app_comm [element_A; element_B] [node_10; node_11]).
  - intros e1 e2 H1 H2.
    apply list_elem_of_In in H1. apply list_elem_of_In in H2. simpl in *.
    destruct H1 as [<-|[<-|[<-|[<-|[]]]]], H2 as [<-|[<-|[<-|[<-|[]]]]];
      simpl; intros; (done || discriminate).
Defined.

Lemma malformed_element_ends_pass_witness :
  process_elements From312 (index_nodes scenario) init
    ([element_A] ++ element_no_lat :: [element_B; node_10; node_11]) =
  process_elements From312 (index_nodes scenario) init [element_A].
Proof.
  apply malformed_element_ends_pass.
  - by eexists.
  - left. split; [reflexivity|]. by left.
Defined.

Lemma scrape_openstreetmap_appends_witness :
  ∃ new,
    scrape_openstreetmap From312 (Ok scenario) init =
      mkScraper (objs init ++ new)
        (parks init ++ seq (length (objs init)) (length new)) ∧
    length new ≤ length (filter is_feature scenario) ∧
    exported (scrape_openstreetmap From312 (Ok scenario) init) =
      exported init ++ new.
Proof.
  destruct (scrape_openstreetmap_appends From312 (Ok scenario) init)
    as (new&Heq&_&Hlen&Hexp).
  exists new. split_and!; [exact Heq|exact Hlen|].
  apply Hexp. constructor.
Defined.

Lemma scrape_madison_parks_appends_witness :
  exported (_scrape_madison_parks init) = exported init ++ madison_parks.
Proof.
  destruct (scrape_madison_parks_appends init) as [_ Hexp].
  apply Hexp. constructor.
Defined.

Lemma osm_description_empty_iff_witness :
  (description (mkDogPark "A" 43.08%float (-89.44)%float "Dog park" ""
                  ["Fenced"] None "OpenStreetMap") = "" ↔
   default ∅ (e_tags element_A) !! "description" = Some "" ∧
   default ∅ (e_tags element_A) !! "surface" = None) ∧
  (∀ list_of_set other,
     ¬ (default ∅ (e_tags element_A) !! "description" = Some "" ∧
        default ∅ (e_tags element_A) !! "surface" = None) →
     description
       (merge_into list_of_set other
          (mkDogPark "A" 43.08%float (-89.44)%float "Dog park" ""
             ["Fenced"] None "OpenStreetMap")) =
     description (mkDogPark "A" 43.08%float (-89.44)%float "Dog park" ""
                    ["Fenced"] None "OpenStreetMap")).
Proof.
  apply (osm_description_empty_iff From312 element_A ∅).
  left. vm_compute. reflexivity.
Defined.

Lemma remove_duplicates_description_witness :
  description
    (objs (remove_duplicates first_occurrences
             (mkScraper [park_west; park_east; park_between] [0; 1; 2])) !!! 1)
  = description park_east.
Proof.
  destruct (remove_duplicates_description first_occurrences
              (mkScraper [park_west; park_east; park_between] [0; 1; 2]) 1)
    as [Hkeep _].
  apply Hkeep. discriminate.
Defined.

Lemma remove_duplicates_amenities_witness :
  "Fenced" ∈
    amenities
      (objs (remove_duplicates first_occurrences
               (mkScraper [park_west; park_east; park_between] [0; 1; 2]))
         !!! 0).
Proof.
  destruct (remove_duplicates_amenities first_occurrences
              (mkScraper [park_west; park_east; park_between] [0; 1; 2])
              0 "Fenced" first_occurrences_spec) as [Hup _].
  apply Hup. by left.
Defined.

Lemma remove_duplicates_keeps_amenities_witness :
  ∃ u,
    u ∈ parks (remove_duplicates first_occurrences
                 (mkScraper [park_west; park_east; park_between] [0; 1; 2])) ∧
    "Lighting" ∈
      amenities
        (objs (remove_duplicates first_occurrences
                 (mkScraper [park_west; park_east; park_between] [0; 1; 2]))
           !!! u) ∧
    (u = 2 ∨
     is_close
       (objs (remove_duplicates first_occurrences
                (mkScraper [park_west; park_east; park_between] [0; 1; 2]))
          !!! 2)
       (objs (remove_duplicates first_occurrences
                (mkScraper [park_west; park_east; park_between] [0; 1; 2]))
          !!! u) = true).
Proof.
  apply (remove_duplicates_keeps_amenities first_occurrences
           (mkScraper [park_west; park_east; park_between] [0; 1; 2])
           2 "Lighting" first_occurrences_spec).
  - repeat constructor.
  - apply list_elem_of_In. simpl. tauto.
  - apply list_elem_of_In. simpl. tauto.
Defined.

Lemma remove_duplicates_length_head_witness :
  ∃ rest',
    parks (remove_duplicates first_occurrences
             (mkScraper [park_west; park_east; park_between] [0; 1; 2])) =
      0 :: rest' ∧
    rest' `sublist_of` [1; 2].
Proof.
  destruct (remove_duplicates_length_head first_occurrences
              (mkScraper [park_west; park_east; park_between] [0; 1; 2]))
    as [_ Hhead].
  apply Hhead. reflexivity.
Defined.

Lemma remove_duplicates_fixed_point_witness :
  remove_duplicates first_occurrences
    (mkScraper [park_west; park_east] [0; 1]) =
  mkScraper [park_west; park_east] [0; 1].
Proof.
  destruct (remove_duplicates_fixed_point first_occurrences
              (mkScraper [park_west; park_east] [0; 1])) as [Hfix _].
  apply Hfix.
  intros [|[|i]] [|[|j]] u v Hij Hu Hv; simpl in *; simplify_eq; try lia.
  vm_compute. reflexivity.
Defined.

Lemma geocode_location_first_match_witness :
  ∃ r items rest la_v lo_v,
    sample_reply = Ok r ∧ status_ok r = true ∧
    decoded r = Some (JList (JDict items :: rest)) ∧
    dict_get items "lat" = Some la_v ∧
    py_float sample_float_of_str (λ _, None) la_v = Ok 43.0747%float ∧
    dict_get items "lon" = Some lo_v ∧
    py_float sample_float_of_str (λ _, None) lo_v = Ok (-89.3837)%float.
Proof.
  apply (geocode_location_first_match sample_float_of_str (λ _, None)
           sample_reply (43.0747%float, (-89.3837)%float)).
  - reflexivity.
  - intros Heq. apply (f_equal (λ c, (c.1 =? 43.0731)%float)) in Heq.
    vm_compute in Heq. discriminate.
Defined.

Lemma way_over_known_nodes_witness :
  (∃ park st',
     _process_osm_way From312 init element_G (index_nodes triangle) = Ok st' ∧
     objs st' = objs init ++ [park] ∧
     parks st' = parks init ++ [length (objs init)] ∧
     area_bounds park = Some triangle_ring ∧
     lat park = arithmetic_mean From312 [43.1; 43.2; 43.3]%float ∧
     lng park = arithmetic_mean From312 [-89.1; -89.2; -89.3]%float) ∧
  (∃ park st',
     _process_osm_way Before312 init element_G (index_nodes triangle) =
       Ok st' ∧
     objs st' = objs init ++ [park] ∧
     parks st' = parks init ++ [length (objs init)] ∧
     area_bounds park = Some triangle_ring ∧
     lat park = arithmetic_mean Before312 [43.1; 43.2; 43.3]%float ∧
     lng park = arithmetic_mean Before312 [-89.1; -89.2; -89.3]%float).
Proof.
  assert (∀ node_id node,
            node_id ∈ default [] (e_nodes element_G) →
            index_nodes triangle !! node_id = Some node →
            is_Some (e_lat node) ∧ is_Some (e_lon node)) as Hcoord.
  { intros node_id node Hin Hnode.
    apply list_elem_of_In in Hin. simpl in Hin.
    destruct Hin as [<-|[<-|[<-|[<-|[]]]]]; vm_compute in Hnode;
      try discriminate; injection Hnode as <-; split; by eexists. }
  split.
  - destruct (way_over_known_nodes From312 init element_G
                (index_nodes triangle) Hcoord) as [_ Hpark].
    apply Hpark. vm_compute. discriminate.
  - destruct (way_over_known_nodes Before312 init element_G
                (index_nodes triangle) Hcoord) as [_ Hpark].
    apply Hpark. vm_compute. discriminate.
Defined.

Lemma is_close_relation_witness :
  is_close park_west park_between = is_close park_between park_west ∧
  is_close park_west park_west = true.
Proof.
  destruct is_close_relation as (Hsym&Hsame&_). split.
  - apply Hsym.
  - by rewrite Hsame.
Defined.

(** The area [T] stands before its nodes in the reply, and gets its
    park all the same. *)
Lemma way_resolved_anywhere_witness :
  ∃ (r : loc) park,
    length (objs init) ≤ r ∧
    r ∈ parks (scrape_openstreetmap From312 (Ok triangle) init) ∧
    objs (scrape_openstreetmap From312 (Ok triangle) init) !! r = Some park ∧
    area_bounds park = Some triangle_ring ∧
    lat park = arithmetic_mean From312 [43.1; 43.2; 43.3]%float ∧
    lng park = arithmetic_mean From312 [-89.1; -89.2; -89.3]%float.
Proof.
  apply (way_resolved_anywhere From312 triangle init element_T
           [21; 22; 23]%Z triangle_ring).
  - intros e1 e2 H1 H2.
    apply list_elem_of_In in H1. apply list_elem_of_In in H2. simpl in *.
    destruct H1 as [<-|[<-|[<-|[<-|[]]]]], H2 as [<-|[<-|[<-|[<-|[]]]]];
      simpl; intros; (done || discriminate).
  - intros e He. apply list_elem_of_In in He. simpl in He.
    destruct He as [<-|[<-|[<-|[<-|[]]]]]; simpl; intros;
      (discriminate || (split; by eexists)).
  - apply list_elem_of_In. simpl. tauto.
  - reflexivity.
  - by eexists.
  - reflexivity.
  - discriminate.
  - repeat constructor.
    + exists node_21. split_and!; try reflexivity.
      apply list_elem_of_In. simpl. tauto.
    + exists node_22. split_and!; try reflexivity.
      apply list_elem_of_In. simpl. tauto.
    + exists node_23. split_and!; try reflexivity.
      apply list_elem_of_In. simpl. tauto.
Defined.
